(** * Lunaria: the tracked-commit resolver and the per-file history walker

    A shallow embedding of [findLatestTrackedCommit] and of the class
    [LunariaGitInstance] (constructor, [getFileLatestChanges], [cache]),
    together with the parts of the JavaScript runtime and of the libraries
    they call: [Array.prototype.find], [String.prototype.split],
    [Array.prototype.join], [RegExp] (a fragment of the pattern syntax),
    [picomatch.isMatch] (an interface), and [simple-git]'s [log] (an
    interface, plus a linear-history model of [git log]).

    Strings are sequences of code units; the development is about text in
    the ASCII range, where a code unit is one [ascii]. *)

From Stdlib Require Import String Ascii List ZArith Bool Lia.
From stdpp Require Import gmap strings.
Import ListNotations.

(** ** JavaScript runtime *)

Module JS.

(** What a call can throw. [SyntaxError] and [TypeError] are JavaScript's;
    [GitError] is the rejection of simple-git's promise when the [git]
    process fails. [NotModelled] is not an exception of the program: the
    pattern compiler below covers a fragment of the pattern syntax and
    answers [NotModelled] beyond it. *)
Inductive Exception : Type :=
| SyntaxError
| TypeError
| GitError
| NotModelled.

(** A completion: a value, or an exception on its way up the stack. *)
Inductive Exc (A : Type) : Type :=
| Ok (a : A)
| Throw (e : Exception).
Arguments Ok {A} a.
Arguments Throw {A} e.

Definition bind {A B : Type} (m : Exc A) (k : A -> Exc B) : Exc B :=
  match m with
  | Ok a => k a
  | Throw e => Throw e
  end.

Definition map {A B : Type} (f : A -> B) (m : Exc A) : Exc B :=
  bind m (fun a => Ok (f a)).

(** [Array.prototype.find] with a callback that may throw: the elements
    are visited in order, the first one for which the callback answers a
    truthy value is returned, [undefined] ([None]) when there is none. *)
Fixpoint Array_find {A : Type} (f : A -> Exc bool) (l : list A) : Exc (option A) :=
  match l with
  | [] => Ok None
  | x :: l' =>
      bind (f x) (fun b => if b then Ok (Some x) else Array_find f l')
  end.

(** [Array.prototype.join]: the empty array joins to the empty string. *)
Definition Array_join (sep : string) (l : list string) : string :=
  String.concat sep l.

(** [String.prototype.split] with a separator of one code unit. The
    result is never empty: a string without the separator (the empty
    string too) is returned whole. *)
Fixpoint String_split (sep : ascii) (s : string) : list string :=
  match s with
  | EmptyString => [EmptyString]
  | String c s' =>
      if Ascii.eqb c sep then EmptyString :: String_split sep s'
      else match String_split sep s' with
           | h :: t => String c h :: t
           | [] => [String c EmptyString]
           end
  end.

(** [s.includes(c)] for one code unit [c]. *)
Fixpoint occurs (c : ascii) (s : string) : bool :=
  match s with
  | EmptyString => false
  | String d s' => Ascii.eqb d c || occurs c s'
  end.

(** [s.startsWith(p)], returning what follows the prefix. *)
Fixpoint strip_prefix (p s : string) : option string :=
  match p with
  | EmptyString => Some s
  | String a p' =>
      match s with
      | EmptyString => None
      | String b s' => if Ascii.eqb a b then strip_prefix p' s' else None
      end
  end.

(** *** Plain objects used as maps

    A plain object ([{}], or what [JSON.parse] makes of an object) whose
    values are strings is the finite map of its own properties; what it
    does not have itself it inherits from [Object.prototype]. *)

(** The methods of [Object.prototype]. *)
Definition Object_prototype_methods : list string :=
  ["__defineGetter__"; "__defineSetter__"; "hasOwnProperty";
   "__lookupGetter__"; "__lookupSetter__"; "isPrototypeOf";
   "propertyIsEnumerable"; "toString"; "valueOf"; "toLocaleString"].

(** What a template literal makes of [Object.prototype[key]], for the keys
    [Object.prototype] has: [constructor] is the function [Object],
    [__proto__] is an accessor that answers [Object.prototype] itself, the
    others are methods, printed the way Node prints a native function.
    All of these values are truthy. *)
Definition inheritedText (key : string) : option string :=
  if String.eqb key "constructor" then Some "function Object() { [native code] }"
  else if String.eqb key "__proto__" then Some "[object Object]"
  else if existsb (String.eqb key) Object_prototype_methods
       then Some ("function " +:+ key +:+ "() { [native code] }")
       else None.

(** [object[key] = value] for a string [value]. The assignment writes an
    own property, except for the key [__proto__] on an object that has no
    own property of that name: it reaches the setter of
    [Object.prototype], which ignores a value that is neither an object
    nor [null]. *)
Definition setProperty (object : gmap string string) (key value : string)
    : gmap string string :=
  match object !! key with
  | Some _ => <[key := value]> object
  | None => if String.eqb key "__proto__" then object else <[key := value]> object
  end.

End JS.

Import JS.

Declare Scope exc_scope.
Delimit Scope exc_scope with exc.
Notation "'let*' x ':=' e 'in' k" :=
  (JS.bind e (fun x => k))
  (at level 10, x name, e at level 100, k at level 200) : exc_scope.
Open Scope exc_scope.

(** ** Regular expressions

    [new RegExp(pattern, flags)] and [RegExp.prototype.test] for the
    fragment of the pattern syntax made of literal characters, [.],
    alternation [|], groups [( )] and the quantifiers [*], [+], [?] with
    their lazy forms. Patterns that use anything else (escapes, classes,
    braces, anchors, group specifiers [(?...)]) are answered
    [NotModelled]. In this fragment a match exists exactly when some
    substring of the subject is in the language of the pattern, which is
    what [String.prototype.match] is asked in the program (its result is
    only tested for truthiness). *)

Module RegExp.

Inductive regex : Type :=
| Void                       (* matches nothing; arises in derivatives only *)
| Eps                        (* the empty alternative *)
| Chr (c : ascii)
| Any                        (* [.] *)
| Seq (r1 r2 : regex)
| Alt (r1 r2 : regex)
| Star (r : regex).

Inductive Token : Type :=
| TOpen | TClose | TBar | TStar | TPlus | TQuest | TDot
| TBeyond                    (* syntax outside the fragment *)
| TChar (c : ascii).

Definition token_of (c : ascii) : Token :=
  if Ascii.eqb c "(" then TOpen
  else if Ascii.eqb c ")" then TClose
  else if Ascii.eqb c "|" then TBar
  else if Ascii.eqb c "*" then TStar
  else if Ascii.eqb c "+" then TPlus
  else if Ascii.eqb c "?" then TQuest
  else if Ascii.eqb c "." then TDot
  else if Ascii.eqb c "\" then TBeyond
  else if Ascii.eqb c "[" then TBeyond
  else if Ascii.eqb c "]" then TBeyond
  else if Ascii.eqb c "{" then TBeyond
  else if Ascii.eqb c "}" then TBeyond
  else if Ascii.eqb c "^" then TBeyond
  else if Ascii.eqb c "$" then TBeyond
  else TChar c.

(** A group being read: the alternatives already closed by a [|] and the
    terms of the alternative being read, both newest first. *)
Record Frame : Type := mkFrame {
  alts : list regex;
  terms : list regex
}.

Definition emptyFrame : Frame := mkFrame [] [].

(** What the previous token was, as far as the next one cares. *)
Inductive Prev : Type :=
| PStart                     (* start of the pattern, or after [|] *)
| POpen                      (* after [(] *)
| PTerm                      (* after a term that can be quantified *)
| PQuant                     (* after a quantifier *)
| PLazy.                     (* after the [?] of a lazy quantifier *)

Record PState : Type := mkPState {
  top : Frame;
  below : list Frame;
  prev : Prev
}.

Definition sequence (ts : list regex) : regex :=
  fold_left (fun acc t => Seq t acc) ts Eps.

Definition disjunction (f : Frame) : regex :=
  fold_left (fun acc a => Alt a acc) (alts f) (sequence (terms f)).

Definition pushTerm (t : regex) (f : Frame) : Frame :=
  mkFrame (alts f) (t :: terms f).

Definition closeAlternative (f : Frame) : Frame :=
  mkFrame (sequence (terms f) :: alts f) [].

(** Apply a quantifier to the last term read. *)
Definition quantify (q : regex -> regex) (f : Frame) : option Frame :=
  match terms f with
  | t :: ts => Some (mkFrame (alts f) (q t :: ts))
  | [] => None
  end.

Definition step (t : Token) (st : PState) : Exc PState :=
  match t with
  | TOpen => Ok (mkPState emptyFrame (top st :: below st) POpen)
  | TClose =>
      match below st with
      | [] => Throw SyntaxError                       (* unmatched ')' *)
      | f :: fs => Ok (mkPState (pushTerm (disjunction (top st)) f) fs PTerm)
      end
  | TBar => Ok (mkPState (closeAlternative (top st)) (below st) PStart)
  | TStar =>
      match prev st, quantify Star (top st) with
      | PTerm, Some f => Ok (mkPState f (below st) PQuant)
      | _, _ => Throw SyntaxError                     (* nothing to repeat *)
      end
  | TPlus =>
      match prev st, quantify (fun r => Seq r (Star r)) (top st) with
      | PTerm, Some f => Ok (mkPState f (below st) PQuant)
      | _, _ => Throw SyntaxError
      end
  | TQuest =>
      match prev st with
      | PTerm =>
          match quantify (fun r => Alt r Eps) (top st) with
          | Some f => Ok (mkPState f (below st) PQuant)
          | None => Throw SyntaxError
          end
      | PQuant => Ok (mkPState (top st) (below st) PLazy)
      | POpen => Throw NotModelled                    (* a group specifier *)
      | PStart | PLazy => Throw SyntaxError
      end
  | TDot => Ok (mkPState (pushTerm Any (top st)) (below st) PTerm)
  | TBeyond => Throw NotModelled
  | TChar c => Ok (mkPState (pushTerm (Chr c) (top st)) (below st) PTerm)
  end.

Fixpoint run (pattern : string) (st : PState) : Exc PState :=
  match pattern with
  | EmptyString => Ok st
  | String c rest => let* st' := step (token_of c) st in run rest st'
  end.

Definition initial : PState := mkPState emptyFrame [] PStart.

Definition compile (pattern : string) : Exc regex :=
  let* st := run pattern initial in
  match below st with
  | [] => Ok (disjunction (top st))
  | _ :: _ => Throw SyntaxError                       (* unterminated group *)
  end.

(** [Canonicalize] under the [i] flag, for ASCII text: the letters [a] to
    [z] fold to [A] to [Z]. A string holds text beyond ASCII as the bytes
    of its UTF-8 encoding, which are compared as they are: case is not
    folded there, and what is proved of a match under the [i] flag is
    proved of ASCII keywords and messages. *)
Definition canonicalize (c : ascii) : ascii :=
  let n := N_of_ascii c in
  if ((97 <=? n) && (n <=? 122))%N then ascii_of_N (n - 32) else c.

Definition sameChar (ignoreCase : bool) (c d : ascii) : bool :=
  if ignoreCase then Ascii.eqb (canonicalize c) (canonicalize d)
  else Ascii.eqb c d.

(** [.] matches every code unit but the line terminators. *)
Definition lineTerminator (c : ascii) : bool :=
  Ascii.eqb c "010" || Ascii.eqb c "013".

Fixpoint nullable (r : regex) : bool :=
  match r with
  | Void => false
  | Eps => true
  | Chr _ => false
  | Any => false
  | Seq r1 r2 => nullable r1 && nullable r2
  | Alt r1 r2 => nullable r1 || nullable r2
  | Star _ => true
  end.

(** What remains to be matched once the code unit [d] has been read. *)
Fixpoint deriv (ignoreCase : bool) (d : ascii) (r : regex) : regex :=
  match r with
  | Void => Void
  | Eps => Void
  | Chr c => if sameChar ignoreCase c d then Eps else Void
  | Any => if lineTerminator d then Void else Eps
  | Seq r1 r2 =>
      if nullable r1
      then Alt (Seq (deriv ignoreCase d r1) r2) (deriv ignoreCase d r2)
      else Seq (deriv ignoreCase d r1) r2
  | Alt r1 r2 => Alt (deriv ignoreCase d r1) (deriv ignoreCase d r2)
  | Star r1 => Seq (deriv ignoreCase d r1) (Star r1)
  end.

(** Some prefix of [s] is matched by [r]. *)
Fixpoint matchesAt (ignoreCase : bool) (r : regex) (s : string) : bool :=
  nullable r ||
  match s with
  | EmptyString => false
  | String d s' => matchesAt ignoreCase (deriv ignoreCase d r) s'
  end.

(** Some substring of [s] is matched by [r]: the start index runs over the
    subject from left to right, as in [RegExpBuiltinExec] without the
    sticky flag. *)
Fixpoint search (ignoreCase : bool) (r : regex) (s : string) : bool :=
  matchesAt ignoreCase r s ||
  match s with
  | EmptyString => false
  | String _ s' => search ignoreCase r s'
  end.

Record RegExpObject : Type := mkRegExp {
  source : string;
  ignoreCase : bool;
  program : regex
}.

(** [new RegExp(pattern, flags)] for no flag or the flag [i]. *)
Definition new (pattern flags : string) : Exc RegExpObject :=
  let* ic := (if String.eqb flags "" then Ok false
              else if String.eqb flags "i" then Ok true
              else Throw NotModelled) in
  let* r := compile pattern in
  Ok (mkRegExp pattern ic r).

(** [re.test(s)]; for a regular expression without the [g] and [y] flags,
    [s.match(re)] is an array (truthy) exactly when [re.test(s)]. *)
Definition test (re : RegExpObject) (s : string) : bool :=
  search (ignoreCase re) (program re) s.

(** *** Notions used to reason about the compiler *)

(** One of the patterns of [l] is found in [s]. *)
Definition anyMatches (ic : bool) (s : string) (l : list regex) : bool :=
  existsb (fun a => search ic a s) l.

(** The stack of a pattern read on its own, seen inside a larger pattern:
    [B] lies below it, and the group it is read in has the alternatives
    [A] closed already. *)
Definition addAlts (A : list regex) (f : Frame) : Frame :=
  mkFrame (alts f ++ A) (terms f).

Definition gtop (A : list regex) (t : Frame) (b : list Frame) : Frame :=
  match b with
  | [] => addAlts A t
  | _ :: _ => t
  end.

Fixpoint gbelow (A : list regex) (B : list Frame) (t : Frame) (b : list Frame)
    : list Frame :=
  match b with
  | [] => B
  | f :: fs => gtop A f fs :: gbelow A B f fs
  end.

Definition graft (A : list regex) (B : list Frame) (st : PState) (q : Prev) : PState :=
  mkPState (gtop A (top st) (below st)) (gbelow A B (top st) (below st)) q.

(** After [(] the next token is read as at the start of a pattern, but for
    [?], which is refused in both places. *)
Definition compat (p q : Prev) : Prop := q = p \/ (p = PStart /\ q = POpen).

(** The pattern compiles on its own. *)
Definition compiles (k : string) : Prop := exists r, compile k = Ok r.

(** What the pattern finds in [s]; nothing when it does not compile. *)
Definition found (ic : bool) (s : string) (k : string) : bool :=
  match compile k with
  | Ok r => search ic r s
  | Throw _ => false
  end.

End RegExp.

(** ** Data model *)

(** A line of simple-git's log: [DefaultLogFields]. [message] is the
    subject of the commit, [body] the rest of its message. *)
Record Commit : Type := mkCommit {
  hash : string;
  date : string;
  message : string;
  refs : string;
  body : string;
  author_name : string;
  author_email : string
}.

(** simple-git's [LogResult]: the lines newest first, and the first of
    them ([null] when there is none). *)
Record LogResult : Type := mkLogResult {
  all : list Commit;
  latest : option Commit;
  total : nat
}.

(** The argument of [git.log] as the program builds it. *)
Record LogOptions : Type := mkLogOptions {
  file : string;
  strictDate : bool;
  from : option string
}.

(** [LunariaConfig['tracking']] and the fields of [LunariaConfig] the
    program reads. *)
Record Tracking : Type := mkTracking {
  ignoredKeywords : list string
}.

Record LunariaConfig : Type := mkConfig {
  tracking : Tracking;
  cacheDir : string
}.

(** The named groups of a match of [trackerDirectivesRe]; [pathsOrGlobs]
    is [undefined] ([None]) when its optional group took no part. *)
Record Groups : Type := mkGroups {
  directive : string;
  pathsOrGlobs : option string
}.

(** One of the two records [getFileLatestChanges] returns. *)
Module Change.
Record t : Type := mk {
  date : string;
  message : string;
  hash : string
}.
End Change.

Record FileChanges : Type := mkFileChanges {
  latestChange : Change.t;
  latestTrackedChange : Change.t
}.

(** How a call of an async method that may end the process ends. *)
Inductive Outcome (A : Type) : Type :=
| Fulfilled (a : A)
| Rejected (e : Exception)
| Exited (code : Z).
Arguments Fulfilled {A} a.
Arguments Rejected {A} e.
Arguments Exited {A} code.

(** ** What the module imports

    [picomatch.isMatch(path, glob)] (it throws a [TypeError] on an empty
    glob), [resolve] of [node:path], the [contents] of a [new Cache(dir,
    domain, hash)] and [UncommittedFileFound.message]; the last two are
    modules of the repository outside the sources at hand. *)
Class Imports : Type := mkImports {
  picomatch_isMatch : string -> string -> Exc bool;
  path_resolve : string -> string;
  Cache_contents : string -> string -> string -> gmap string string;
  UncommittedFileFound_message : string -> string
}.

(** The [simple-git] instance held in [#git]: what [git log] prints for
    the options, parsed, or the failure of the process. *)
Definition SimpleGit : Type := LogOptions -> Exc (list Commit).

Definition simpleGit_log (git : SimpleGit) (options : LogOptions) : Exc LogResult :=
  let* lines := git options in
  Ok (mkLogResult lines (head lines) (length lines)).

(** [maxConcurrentProcesses] of the instance, from the number of cores. *)
Definition maxConcurrentProcesses (cpus : Z) : Z :=
  Z.max 2 (Z.min 32 cpus).

(** ** [git log] over a linear history

    A repository as the list of its commits, newest first, each with the
    paths it touches. [rev^] names the parent of [rev]; the range simple-git
    passes for [from] alone is [from...], the commits reachable from [HEAD]
    and not from [from]; the path restricts the listing to the commits
    that touch it. *)

Module Git.

Record Entry : Type := mkEntry {
  commit : Commit;
  touched : list string
}.

Definition Repo : Type := list Entry.

Fixpoint indexOf (h : string) (repo : Repo) : option nat :=
  match repo with
  | [] => None
  | e :: older =>
      if String.eqb (hash (commit e)) h then Some 0%nat
      else option_map S (indexOf h older)
  end.

(** A revision with its trailing carets counted and removed. *)
Fixpoint carets (rev : string) : string * nat :=
  match rev with
  | EmptyString => (EmptyString, 0%nat)
  | String c rest =>
      let (base, n) := carets rest in
      match base with
      | EmptyString => if Ascii.eqb c "^" then (EmptyString, S n)
                       else (String c EmptyString, n)
      | _ => (String c base, n)
      end
  end.

Definition parent (repo : Repo) (i : nat) : option nat :=
  if (S i <? length repo)%nat then Some (S i) else None.

Fixpoint ancestor (repo : Repo) (n : nat) (i : nat) : option nat :=
  match n with
  | O => Some i
  | S n' => match parent repo i with
            | Some j => ancestor repo n' j
            | None => None
            end
  end.

(** The position of the commit a revision names. *)
Definition revParse (repo : Repo) (rev : string) : option nat :=
  let (base, n) := carets rev in
  match indexOf base repo with
  | Some i => ancestor repo n i
  | None => None
  end.

Definition touches (path : string) (e : Entry) : bool :=
  existsb (String.eqb path) (touched e).

Definition history (path : string) (entries : list Entry) : list Commit :=
  List.map commit (List.filter (touches path) entries).

Definition log (repo : Repo) : SimpleGit :=
  fun options =>
    match from options with
    | None => Ok (history (file options) repo)
    | Some rev =>
        match revParse repo rev with
        | Some i => Ok (history (file options) (firstn i repo))
        | None => Throw GitError                      (* bad revision *)
        end
    end.

End Git.

(** ** The program *)

Section Program.
Context {imports : Imports}.

(** The rest of the line, [[^\n]*] taken greedily. *)
Fixpoint restOfLine (s : string) : string :=
  match s with
  | EmptyString => EmptyString
  | String c s' =>
      if Ascii.eqb c "010" then EmptyString else String c (restOfLine s')
  end.

(** [trackerDirectivesRe] tried at the start of [s]: one of the two
    directive names, a colon, and the optional group [([^\n]+)?]. *)
Definition trackerDirectivesRe_at (s : string) : option Groups :=
  let alternative (name : string) :=
    match strip_prefix name s with
    | Some rest =>
        match strip_prefix ":" rest with
        | Some after =>
            Some (mkGroups name
                    match restOfLine after with
                    | EmptyString => None
                    | paths => Some paths
                    end)
        | None => None
        end
    | None => None
    end in
  match alternative "@lunaria-track" with
  | Some g => Some g
  | None => alternative "@lunaria-ignore"
  end.

(** [body.match(trackerDirectivesRe)]: the leftmost match, [null]
    ([None]) when there is none. *)
Fixpoint trackerDirectivesRe_match (s : string) : option Groups :=
  match trackerDirectivesRe_at s with
  | Some g => Some g
  | None =>
      match s with
      | EmptyString => None
      | String _ s' => trackerDirectivesRe_match s'
      end
  end.

(** [ignoredKeywordsRe]. *)
Definition ignoredKeywordsRe (tracking : Tracking) : Exc RegExp.RegExpObject :=
  RegExp.new ("(" +:+ Array_join "|" (ignoredKeywords tracking) +:+ ")") "i".

(** The callback of the inner [find]; it returns [undefined] (falsy)
    for a directive that is neither of the two. *)
Definition pathOrGlobSelected (path directive pathOrGlob : string) : Exc bool :=
  if String.eqb directive "@lunaria-track" then picomatch_isMatch path pathOrGlob
  else if String.eqb directive "@lunaria-ignore"
       then JS.map negb (picomatch_isMatch path pathOrGlob)
       else Ok false.

(** The verdict of a directive: [pathsOrGlobs.split(';').find(...) !==
    undefined]. Reading [split] of [undefined] throws a [TypeError]. *)
Definition directiveVerdict (path : string) (groups : Groups) : Exc bool :=
  match pathsOrGlobs groups with
  | None => Throw TypeError
  | Some paths =>
      let* found := Array_find (pathOrGlobSelected path (directive groups))
                               (String_split ";" paths) in
      Ok (match found with Some _ => true | None => false end)
  end.

(** What the body of a commit decides once the subject has passed the
    keywords: the part of the outer callback after its first line. *)
Definition bodyVerdict (path body : string) : Exc bool :=
  match trackerDirectivesRe_match body with
  | None => Ok true
  | Some groups => directiveVerdict path groups
  end.

(** [new RegExp(keyword, 'i').test(message)]: the message matches the
    keyword, whatever the case of its letters; a keyword that is no
    pattern matches nothing. *)
Definition matchesKeyword (keyword message : string) : bool :=
  match RegExp.new keyword "i" with
  | Ok re => RegExp.test re message
  | Throw _ => false
  end.

(** The keyword is a pattern on its own. *)
Definition validKeyword (keyword : string) : Prop :=
  exists re, RegExp.new keyword "i" = Ok re.

(** The callback of the outer [find]. *)
Definition isTracked (re : RegExp.RegExpObject) (path : string) (commit : Commit) : Exc bool :=
  if RegExp.test re (message commit) then Ok false
  else match trackerDirectivesRe_match (body commit) with
       | None => Ok true
       | Some groups => directiveVerdict path groups
       end.

Definition findLatestTrackedCommit
    (tracking : Tracking) (path : string) (commits : list Commit) : Exc (option Commit) :=
  let* re := ignoredKeywordsRe tracking in
  Array_find (isTracked re path) commits.

(** *** [LunariaGitInstance] *)

(** The private fields of the class. [#cache] is a plain object used as a
    map from paths to hashes: [cache] holds its own properties, and it
    inherits the properties of [Object.prototype] (the empty object of the
    force mode by construction, the contents of the [Cache] as what
    [JSON.parse] gives). *)
Record LunariaGitInstance : Type := mkInstance {
  git : SimpleGit;
  config : LunariaConfig;
  logger : list string;        (* what [logger.error] was given, oldest first *)
  force : bool;
  cache : gmap string string
}.

Definition new_LunariaGitInstance
    (git : SimpleGit) (config : LunariaConfig) (logger : list string)
    (force : bool) (hash : string) : LunariaGitInstance :=
  mkInstance git config logger force
    (if force then ∅ else Cache_contents (cacheDir config) "git" hash).

(** A string is truthy when it is not empty. *)
Definition truthy (s : string) : bool := negb (String.eqb s "").

(** The argument of [this.#git.log]. [this.#cache[path]] is the own
    property when there is one, and what [Object.prototype] has under that
    name otherwise. *)
Definition logOptions (self : LunariaGitInstance) (path : string) : LogOptions :=
  mkLogOptions (path_resolve path) true
    match cache self !! path with
    | Some checkpoint => if truthy checkpoint then Some (checkpoint +:+ "^") else None
    | None =>
        match inheritedText path with
        | Some text => Some (text +:+ "^")
        | None => None
        end
    end.

Definition changeOf (c : Commit) : Change.t :=
  Change.mk (date c) (message c) (hash c).

(** [getFileLatestChanges] from the point where [await] resumes with the
    answer of [git.log]. *)
Definition resolveChanges
    (self : LunariaGitInstance) (path : string) (answer : Exc LogResult)
    : Outcome FileChanges * LunariaGitInstance :=
  match answer with
  | Throw e => (Rejected e, self)
  | Ok log =>
      let latestChange := latest log in
      match findLatestTrackedCommit (tracking (config self)) path (all log) with
      | Throw e => (Rejected e, self)
      | Ok found =>
          let latestTrackedChange :=
            match found with Some c => Some c | None => latestChange end in
          match latestChange, latestTrackedChange with
          | Some lc, Some ltc =>
              (Fulfilled (mkFileChanges (changeOf lc) (changeOf ltc)),
               if force self then self
               else mkInstance (git self) (config self) (logger self) (force self)
                               (setProperty (cache self) path (hash ltc)))
          | _, _ =>
              (Exited 1,
               mkInstance (git self) (config self)
                          (logger self ++ [UncommittedFileFound_message path])
                          (force self) (cache self))
          end
      end
  end.

Definition getFileLatestChanges (self : LunariaGitInstance) (path : string)
    : Outcome FileChanges * LunariaGitInstance :=
  resolveChanges self path (simpleGit_log (git self) (logOptions self path)).

(** The instance after a series of calls, one per path, each resumed with
    an answer of [git.log]. *)
Fixpoint afterCalls (self : LunariaGitInstance) (calls : list (string * Exc LogResult))
    : LunariaGitInstance :=
  match calls with
  | [] => self
  | (path, answer) :: rest => afterCalls (snd (resolveChanges self path answer)) rest
  end.

End Program.

(** ** A concrete setting to run the program in *)

Module Example.

Definition wordChar (c : ascii) : bool :=
  let n := N_of_ascii c in
  ((48 <=? n) && (n <=? 57) || (65 <=? n) && (n <=? 90) ||
   (97 <=? n) && (n <=? 122) || (n =? 45) || (n =? 95))%N.

(** Paths and globs without glob syntax: segments of letters, digits,
    [-] and [_], with dots inside, separated by single slashes. *)
Fixpoint plainFrom (segmentStart : bool) (s : string) : bool :=
  match s with
  | EmptyString => negb segmentStart
  | String c s' =>
      if Ascii.eqb c "/" then negb segmentStart && plainFrom true s'
      else if Ascii.eqb c "." then negb segmentStart && plainFrom false s'
      else wordChar c && plainFrom false s'
  end.

(** [picomatch.isMatch] on such paths and globs: a glob without glob
    syntax matches the path equal to it. *)
Definition isMatch (path glob : string) : Exc bool :=
  if String.eqb glob "" then Throw TypeError
  else if plainFrom true path && plainFrom true glob then Ok (String.eqb path glob)
  else Throw NotModelled.

Definition imports : Imports :=
  mkImports isMatch
    (fun path => "/repo/" +:+ path)
    (fun _ _ _ => {[ "docs/a.md" := "c1" ]})
    (fun location => "no commits found for " +:+ location).

Definition commitOf (hash message body : string) : Commit :=
  mkCommit hash "2024-05-01T10:00:00+00:00" message "" body "dev" "dev@example.org".

Definition keywords : Tracking := mkTracking ["lunaria-ignore"; "fix typo"].

Definition typoOnly : Tracking := mkTracking ["fix typo"].

Definition noKeywords : Tracking := mkTracking [].

Definition c0 : Commit := commitOf "c0" "docs: add page" "".
Definition c1 : Commit := commitOf "c1" "docs: rewrite page" "".
Definition c2 : Commit := commitOf "c2" "docs: reword intro" "".

(** A commit whose directive ignores two paths. *)
Definition ignoresTwo : Commit :=
  commitOf "c3" "chore: move files" "@lunaria-ignore:docs/a.md;docs/b.md".

(** A commit whose directive names no path: the line ends at the colon. *)
Definition emptyDirective : Commit :=
  commitOf "c4" "docs: update" ("@lunaria-track:" +:+ String "010" "more text").

(** A commit with an ignored keyword in its subject and a directive that
    tracks the file in its body. *)
Definition vetoedButTracked : Commit :=
  commitOf "c5" "Fix Typo in page" "@lunaria-track:docs/a.md".

(** Commits whose directive names one path. *)
Definition ignoresOne : Commit :=
  commitOf "c8" "docs: tidy" "@lunaria-ignore:docs/a.md".
Definition tracksOne : Commit :=
  commitOf "c9" "docs: tidy" "@lunaria-track:docs/a.md".

(** A keyword in the body only; a directive in the subject only. *)
Definition keywordInBody : Commit :=
  commitOf "c6" "docs: update" "this is not a fix typo commit".
Definition directiveInSubject : Commit :=
  commitOf "c7" "@lunaria-ignore:docs/a.md" "".

(** The first commit of the repository; it touches neither page. *)
Definition initial : Commit := commitOf "root" "initial commit" "".

Definition repo : Git.Repo :=
  [ Git.mkEntry c2 ["/repo/docs/a.md"];
    Git.mkEntry c1 ["/repo/docs/a.md"];
    Git.mkEntry c0 ["/repo/docs/a.md"; "/repo/docs/b.md"];
    Git.mkEntry initial ["/repo/README.md"] ].

Definition settings : LunariaConfig := mkConfig keywords ".lunaria".

(** An instance whose cache holds the checkpoint [c1] for [docs/a.md]. *)
Definition cached : LunariaGitInstance :=
  @new_LunariaGitInstance imports (Git.log repo) settings [] false "fingerprint".

Definition forced : LunariaGitInstance :=
  @new_LunariaGitInstance imports (Git.log repo) settings [] true "fingerprint".

End Example.

(** ** [utils/misc.ts] *)

Module Misc.

(** [StringIndexOf(s, pattern, 0)], as the text before and after the
    leftmost occurrence of [pattern]; the empty pattern occurs at 0. *)
Fixpoint splitAtFirst (pattern s : string) : option (string * string) :=
  match strip_prefix pattern s with
  | Some following => Some (EmptyString, following)
  | None =>
      match s with
      | EmptyString => None
      | String c s' =>
          match splitAtFirst pattern s' with
          | Some (preceding, following) => Some (String c preceding, following)
          | None => None
          end
      end
  end.

(** [GetSubstitution] for a string pattern, which captures nothing: [$$]
    is a dollar, [$&] the matched text, [$`] and [$'] the text before and
    after it; any other [$] stands for itself. *)
Fixpoint GetSubstitution (matched preceding following template : string) : string :=
  match template with
  | EmptyString => EmptyString
  | String c rest =>
      if Ascii.eqb c "$" then
        match rest with
        | EmptyString => String c EmptyString
        | String d rest' =>
            if Ascii.eqb d "$"
            then String "$" (GetSubstitution matched preceding following rest')
            else if Ascii.eqb d "&"
            then matched +:+ GetSubstitution matched preceding following rest'
            else if Ascii.eqb d "`"
            then preceding +:+ GetSubstitution matched preceding following rest'
            else if Ascii.eqb d "'"
            then following +:+ GetSubstitution matched preceding following rest'
            else String c (GetSubstitution matched preceding following rest)
        end
      else String c (GetSubstitution matched preceding following rest)
  end.

(** [s.replace(pattern, replacement)] for two strings: the leftmost
    occurrence only. *)
Definition String_replace (s pattern replacement : string) : string :=
  match splitAtFirst pattern s with
  | None => s
  | Some (preceding, following) =>
      preceding +:+ GetSubstitution pattern preceding following replacement +:+ following
  end.

(** [getTextFromFormat]. The placeholders are listed as [Object.keys]
    enumerates them, each key with its value. *)
Definition getTextFromFormat (format : string) (placeholders : list (string * string))
    : string :=
  fold_left (fun formatResult '(key, value) => String_replace formatResult key value)
            placeholders format.

(** What [renderToString] is given: a string, [null] or [undefined], a
    template result (an object with [_$litType$], [strings] and [values])
    or an array. Numbers, booleans and other objects are left out. *)
#[warnings="-register-all"]
Inductive Value : Type :=
| VString (s : string)
| VNothing
| VTemplate (strings : list string) (values : list Value)
| VArray (items : list Value).

(** [renderToString]. Reading [strings] and [values] off anything but a
    template result ends in a [TypeError] (spreading [undefined], or the
    [values] method of an array), as does reading [_$litType$] off
    [undefined], which is what [value_list[i]] is once the values and the
    empty string put after them run out. *)
Fixpoint renderToString (data : Value) : Exc string :=
  match data with
  | VTemplate strings values =>
      (fix loop (value_list : list Value) (strings : list string) {struct value_list}
         : Exc string :=
         match strings with
         | [] => Ok EmptyString
         | s :: strings' =>
             match value_list with
             | [] =>
                 match strings' with
                 | [] => Ok s
                 | _ :: _ => Throw TypeError
                 end
             | v :: rest =>
                 let* text :=
                   match v with
                   | VString t => Ok t
                   | VNothing => Throw TypeError
                   | VTemplate _ _ => renderToString v
                   | VArray items =>
                       (fix each (items : list Value) : Exc string :=
                          match items with
                          | [] => Ok EmptyString
                          | inner_v :: more =>
                              let* first := renderToString inner_v in
                              let* others := each more in
                              Ok (first +:+ others)
                          end) items
                   end in
                 let* output := loop rest strings' in
                 Ok (s +:+ text +:+ output)
             end
         end) values strings
  | VString _ => Throw TypeError
  | VNothing => Throw TypeError
  | VArray _ => Throw TypeError
  end.

(** The loop over an array value: its items rendered and concatenated. *)
Fixpoint renderItems (items : list Value) : Exc string :=
  match items with
  | [] => Ok EmptyString
  | inner_v :: more =>
      let* first := renderToString inner_v in
      let* others := renderItems more in
      Ok (first +:+ others)
  end.

(** The text one value of a template contributes. *)
Definition renderValue (v : Value) : Exc string :=
  match v with
  | VString t => Ok t
  | VNothing => Throw TypeError
  | VTemplate _ _ => renderToString v
  | VArray items => renderItems items
  end.

Definition isTemplate (v : Value) : bool :=
  match v with
  | VTemplate _ _ => true
  | _ => false
  end.

End Misc.

(** ** [cli/sync/index.ts] *)

Module Sync.

(** What a prompt resolves to: the answer, or the symbol that stands for
    a cancelled prompt. *)
Inductive PromptValue (A : Type) : Type :=
| Answered (a : A)
| CancelSymbol.
Arguments Answered {A} a.
Arguments CancelSymbol {A}.

(** What [console.js] provides: the styling function [s], the prompts
    [confirm] (message, initial value) and [select] (message, option
    values, initial value), and whether [handleCancel] ends the process on
    a value instead of returning; [cancelText] is what [String] gives for
    the cancel symbol. *)
Class Console : Type := mkConsole {
  s : string -> string;
  confirm : string -> bool -> PromptValue bool;
  select : string -> list string -> option string -> PromptValue string;
  handleCancel : forall A : Type, PromptValue A -> bool;
  cancelText : string
}.

(** How a function that may end the process or throw ends: it returns,
    calls [process.exit], is stopped inside [handleCancel], or rethrows
    what [JSON.parse] or [readFileSync] threw. What it gives to
    [console.log] and [console.error] is left out. *)
Inductive Ending (A : Type) : Type :=
| Returned (a : A)
| ProcessExit (code : Z)
| Cancelled
| Thrown.
Arguments Returned {A} a.
Arguments ProcessExit {A} code.
Arguments Cancelled {A}.
Arguments Thrown {A}.

(** The two fields of [package.json] that are read: an object as the list
    of its keys with their values, in the order of [Object.keys]; [None]
    for a field that is missing. *)
Record PackageJson : Type := mkPackageJson {
  dependencies : option (list (string * string));
  devDependencies : option (list (string * string))
}.

Definition supportedPackages : list string := ["vitepress"].

(** [loadPackageJson], given what [JSON.parse(readFileSync(...))] did. *)
Definition loadPackageJson (parsed : Exc PackageJson) : Ending PackageJson :=
  match parsed with
  | Throw _ => Thrown
  | Ok packageJson =>
      match dependencies packageJson, devDependencies packageJson with
      | Some _, Some _ => Returned packageJson
      | _, _ => ProcessExit 1
      end
  end.

Section Prompts.
Context {console : Console}.

Definition keysOf (object : option (list (string * string))) : list string :=
  match object with
  | Some entries => List.map fst entries
  | None => []
  end.

(** [getPackage]. *)
Definition getPackage (parsed : Exc PackageJson) : Ending (option string) :=
  match loadPackageJson parsed with
  | Thrown => Thrown
  | Cancelled => Cancelled
  | ProcessExit code => ProcessExit code
  | Returned packageJson =>
      let allPackages :=
        keysOf (dependencies packageJson) ++ keysOf (devDependencies packageJson) in
      let foundPackages :=
        List.filter (fun pkg => existsb (String.eqb pkg) supportedPackages) allPackages in
      if (length foundPackages <? 1)%nat then ProcessExit 0
      else if (1 <? length foundPackages)%nat then
        let selected :=
          select (s "Found several packages Lunaria can sync with, which do you want to use?")
                 foundPackages (head foundPackages) in
        if handleCancel _ selected then Cancelled
        else Returned (Some match selected with
                            | Answered value => value
                            | CancelSymbol => cancelText
                            end)
      else Returned (head foundPackages)
  end.

(** [Boolean] of what [confirm] resolved to. *)
Definition Boolean (value : PromptValue bool) : bool :=
  match value with
  | Answered b => b
  | CancelSymbol => true
  end.

(** The three blocks of [updateConfig] share this: [answer] is true when
    questions are skipped, and what the prompt resolved to otherwise;
    [None] when [handleCancel] ended the process. *)
Definition answerTo (message : string) (skip : bool) : option bool :=
  if skip then Some true
  else let value := confirm (s message) true in
       if handleCancel _ value then None else Some (Boolean value).

Section UpdateConfig.
Context {Locale Locales File Other : Type}.
Variable location : File -> string.

(** The fields of the configuration [updateConfig] touches, each absent
    or present, and the rest of the object. *)
Record Config : Type := mkConfig {
  defaultLocale : option Locale;
  locales : option Locales;
  files : option (list File);
  other : Other
}.

(** [config.files?.filter((f) => f.location !== file.location) ?? []]. *)
Definition otherFiles (config : Config) (file : File) : list File :=
  match files config with
  | Some fs => List.filter (fun f => negb (String.eqb (location f) (location file))) fs
  | None => []
  end.

(** [updateConfig], given the configuration [readConfig] resolved to; it
    returns after [writeConfig] was given the configuration in
    [Returned]. Failures of [readConfig] and [writeConfig] are left out. *)
Definition updateConfig
    (config : Config) (newDefaultLocale : option Locale) (newLocales : option Locales)
    (file : option File) (skip : bool) : Ending Config :=
  let afterDefaultLocale :=
    match newDefaultLocale with
    | None => Some config
    | Some value =>
        match answerTo "Update defaultLocale?" skip with
        | None => None
        | Some answer =>
            Some (if answer || skip
                  then mkConfig (Some value) (locales config) (files config) (other config)
                  else config)
        end
    end in
  match afterDefaultLocale with
  | None => Cancelled
  | Some config1 =>
      let afterLocales :=
        match newLocales with
        | None => Some config1
        | Some value =>
            match answerTo "Update locales?" skip with
            | None => None
            | Some answer =>
                Some (if answer || skip
                      then mkConfig (defaultLocale config1) (Some value)
                                    (files config1) (other config1)
                      else config1)
            end
        end in
      match afterLocales with
      | None => Cancelled
      | Some config2 =>
          match file with
          | None => Returned config2
          | Some value =>
              match answerTo "Update files?" skip with
              | None => Cancelled
              | Some answer =>
                  Returned (if answer || skip
                            then mkConfig (defaultLocale config2) (locales config2)
                                          (Some (value :: otherFiles config2 value))
                                          (other config2)
                            else config2)
              end
          end
      end
  end.

End UpdateConfig.
End Prompts.

End Sync.

(** ** Notions used to state further properties of the instance *)

(** A string of ASCII text: every code unit is below 128. *)
Fixpoint isAscii (s : string) : bool :=
  match s with
  | EmptyString => true
  | String c s' => (N_of_ascii c <? 128)%N && isAscii s'
  end.

(** [s.toUpperCase()] for ASCII text, by the table of the letters: a
    letter of the first row becomes the letter below it, every other code
    unit stays. *)
Definition lowerCaseLetters : string := "abcdefghijklmnopqrstuvwxyz".
Definition upperCaseLetters : string := "ABCDEFGHIJKLMNOPQRSTUVWXYZ".

Fixpoint translate (source target : string) (c : ascii) : ascii :=
  match source, target with
  | String a source', String b target' =>
      if Ascii.eqb c a then b else translate source' target' c
  | _, _ => c
  end.

Fixpoint toUpperCase (s : string) : string :=
  match s with
  | EmptyString => EmptyString
  | String c s' =>
      String (translate lowerCaseLetters upperCaseLetters c) (toUpperCase s')
  end.

Section Stored.
Context {imports : Imports}.


End Stored.

(** More commits to run the program on. *)
Module Samples.

(** A body whose second line tracks the file and whose fourth line
    ignores it. *)
Definition twoDirectives : Commit :=
  Example.commitOf "d1" "docs: restructure"
    ("Moves the guide." +:+ String "010" ("@lunaria-track:docs/a.md"
       +:+ String "010" ("and more" +:+ String "010" "@lunaria-ignore:docs/a.md"))).


(** A console whose prompts are all declined, and one that is never
    asked. *)
Definition declining : Sync.Console :=
  Sync.mkConsole (fun text => text)
    (fun _ _ => Sync.Answered false)
    (fun _ _ _ => Sync.CancelSymbol)
    (fun _ value => match value with Sync.CancelSymbol => true | _ => false end)
    "Symbol(cancel)".



(** A repository with a file named [constructor] at its root, and an
    instance in force mode over it. *)
Definition named : Git.Repo :=
  [ Git.mkEntry Example.c1 ["/repo/constructor"];
    Git.mkEntry Example.initial ["/repo/README.md"] ].

Definition forcedOnNamed : LunariaGitInstance :=
  @new_LunariaGitInstance Example.imports (Git.log named) Example.settings []
    true "fingerprint".

(** A commit whose directive ends in a semicolon. *)
Definition trailingSemicolon : Commit :=
  Example.commitOf "d2" "docs: move" "@lunaria-track:docs/b.md;".

(** A repository whose first commit touches the page. *)
Definition young : Git.Repo :=
  [ Git.mkEntry Example.c1 ["/repo/docs/a.md"];
    Git.mkEntry Example.c0 ["/repo/docs/a.md"] ].

(** An instance whose checkpoint for the page is that first commit. *)
Definition rooted : LunariaGitInstance :=
  mkInstance (Git.log young) Example.settings [] false {[ "docs/a.md" := "c0" ]}.

(** A format that holds a placeholder twice. *)
Definition greeting : string := "Hello {name}, {name}!".

(** A template with a template and an array of templates among its
    values. *)
Definition bold : Misc.Value := Misc.VTemplate ["<b>"; "</b>"] [Misc.VString "new"].
Definition page : Misc.Value :=
  Misc.VTemplate ["<p>"; " and "; "</p>"] [bold; Misc.VArray [bold; bold]].

(** A [package.json] without [devDependencies]. *)
Definition onlyDependencies : Sync.PackageJson :=
  Sync.mkPackageJson (Some [("vitepress", "^1.0.0")]) None.

(** A file entry as its location and its pattern. *)
Definition fileEntry : Type := string * string.

Definition stored : Sync.Config (Locale := string) (Locales := list string)
                                (File := fileEntry) (Other := unit) :=
  Sync.mkConfig (Some "en") (Some ["pt"])
    (Some [("docs/**", "old"); ("blog/**", "kept"); ("docs/**", "older")]) tt.

End Samples.

(** * Facts about the regular expressions *)

Module RegExpFacts.
Import RegExp.

Lemma matchesAt_Void ic s : matchesAt ic Void s = false.
Proof. induction s as [|d s IH]; simpl; auto. Qed.

Lemma matchesAt_Alt ic s : forall a b,
  matchesAt ic (Alt a b) s = matchesAt ic a s || matchesAt ic b s.
Proof.
  induction s as [|d s IH]; intros a b; simpl.
  - now rewrite !orb_false_r.
  - rewrite IH.
    destruct (nullable a), (nullable b),
      (matchesAt ic (deriv ic d a) s), (matchesAt ic (deriv ic d b) s); reflexivity.
Qed.

Lemma matchesAt_Seq_Eps ic s : forall r,
  matchesAt ic (Seq r Eps) s = matchesAt ic r s.
Proof.
  induction s as [|d s IH]; intros r; simpl.
  - now rewrite andb_true_r.
  - rewrite andb_true_r. destruct (nullable r); simpl; auto.
Qed.

Lemma search_Alt ic s : forall a b,
  search ic (Alt a b) s = search ic a s || search ic b s.
Proof.
  induction s as [|d s IH]; intros a b.
  - cbn [search]. rewrite matchesAt_Alt, !orb_false_r. reflexivity.
  - cbn [search]. rewrite matchesAt_Alt, IH.
    destruct (matchesAt ic a (String d s)), (matchesAt ic b (String d s)),
      (search ic a s), (search ic b s); reflexivity.
Qed.

Lemma search_Seq_Eps ic s : forall r,
  search ic (Seq r Eps) s = search ic r s.
Proof.
  induction s as [|d s IH]; intros r; cbn [search];
    rewrite matchesAt_Seq_Eps; [reflexivity | now rewrite IH].
Qed.

(** A pattern that accepts the empty string is found in every subject. *)
Lemma search_nullable ic r s : nullable r = true -> search ic r s = true.
Proof. intros H. destruct s; simpl; rewrite H; reflexivity. Qed.

Lemma search_alternatives ic s : forall l last,
  search ic (fold_left (fun acc a => Alt a acc) l last) s
  = anyMatches ic s l || search ic last s.
Proof.
  induction l as [|a l IH]; intros last; simpl; auto.
  rewrite IH, search_Alt.
  destruct (search ic a s), (anyMatches ic s l), (search ic last s); reflexivity.
Qed.

Lemma search_disjunction ic s f :
  search ic (disjunction f) s
  = anyMatches ic s (alts f) || search ic (sequence (terms f)) s.
Proof. apply search_alternatives. Qed.

(** ** Reading a pattern inside a larger one *)

Lemma run_app p1 : forall p2 st,
  run (p1 +:+ p2) st = let* st' := run p1 st in run p2 st'.
Proof.
  induction p1 as [|c p1 IH]; intros p2 st; simpl; auto.
  destruct (step (token_of c) st); simpl; auto.
Qed.

Lemma disjunction_gtop_cons A t f fs :
  disjunction (gtop A t (f :: fs)) = disjunction t.
Proof. reflexivity. Qed.

Lemma step_graft A B t st st' q :
  step t st = Ok st' ->
  compat (prev st) q ->
  step t (graft A B st q) = Ok (graft A B st' (prev st')).
Proof.
  destruct st as [tp bl p]. unfold graft, compat. simpl.
  intros Hstep Hq.
  destruct t; simpl in *.
  - (* ( *) inversion Hstep; subst; clear Hstep. simpl. reflexivity.
  - (* ) *) destruct bl as [|f fs]; [discriminate|].
    inversion Hstep; subst; clear Hstep. simpl.
    destruct fs as [|f' fs]; reflexivity.
  - (* | *) inversion Hstep; subst; clear Hstep. simpl.
    destruct bl; reflexivity.
  - (* * *) destruct p; try discriminate.
    destruct Hq as [-> | [Hp _]]; [|discriminate].
    unfold quantify in *. destruct tp as [al [|x ts]]; simpl in *; [discriminate|].
    inversion Hstep; subst; clear Hstep. destruct bl; reflexivity.
  - (* + *) destruct p; try discriminate.
    destruct Hq as [-> | [Hp _]]; [|discriminate].
    unfold quantify in *. destruct tp as [al [|x ts]]; simpl in *; [discriminate|].
    inversion Hstep; subst; clear Hstep. destruct bl; reflexivity.
  - (* ? *) destruct p; try discriminate.
    + destruct Hq as [-> | [Hp _]]; [|discriminate].
      unfold quantify in *. destruct tp as [al [|x ts]]; simpl in *; [discriminate|].
      inversion Hstep; subst; clear Hstep. destruct bl; reflexivity.
    + destruct Hq as [-> | [Hp _]]; [|discriminate].
      inversion Hstep; subst; clear Hstep. destruct bl; reflexivity.
  - (* . *) inversion Hstep; subst; clear Hstep. destruct bl; reflexivity.
  - discriminate.
  - inversion Hstep; subst; clear Hstep. destruct bl; reflexivity.
Qed.

Lemma compat_refl p : compat p p.
Proof. now left. Qed.

Lemma run_graft A B pattern : forall st st' q,
  run pattern st = Ok st' ->
  compat (prev st) q ->
  exists q', compat (prev st') q' /\
             run pattern (graft A B st q) = Ok (graft A B st' q').
Proof.
  induction pattern as [|c pattern IH]; intros st st' q Hrun Hq; simpl in *.
  - inversion Hrun; subst. exists q. split; auto.
  - destruct (step (token_of c) st) as [st1|e] eqn:Hstep; simpl in Hrun; [|discriminate].
    rewrite (step_graft A B _ _ _ _ Hstep Hq). simpl.
    apply IH; auto using compat_refl.
Qed.

Lemma anyMatches_app ic s l1 l2 :
  anyMatches ic s (l1 ++ l2) = anyMatches ic s l1 || anyMatches ic s l2.
Proof. apply existsb_app. Qed.

(** A pattern that compiles on its own, read where an alternative may
    start: it adds its alternatives to those of the group. *)
Lemma run_alternative k r A B q :
  compile k = Ok r ->
  compat PStart q ->
  exists f q',
    run k (mkPState (mkFrame A []) B q) = Ok (mkPState f B q') /\
    forall ic s, search ic (disjunction f) s = search ic r s || anyMatches ic s A.
Proof.
  unfold compile. intros Hk Hq.
  destruct (run k initial) as [st|e] eqn:Hrun; simpl in Hk; [|discriminate].
  destruct (below st) as [|g gs] eqn:Hbelow; [|discriminate].
  inversion Hk; subst r; clear Hk.
  destruct (run_graft A B k initial st q Hrun Hq) as (q' & _ & Hg).
  destruct st as [tp bl p]; simpl in Hbelow; subst bl.
  exists (addAlts A tp), q'. split.
  - exact Hg.
  - intros ic s. rewrite !search_disjunction. simpl.
    rewrite anyMatches_app.
    destruct (anyMatches ic s (alts tp)), (anyMatches ic s A),
      (search ic (sequence (terms tp)) s); reflexivity.
Qed.

(** The patterns of [k :: ks], each valid on its own, joined with [|]. *)
Lemma run_join k ks : forall A B q,
  Forall compiles (k :: ks) ->
  compat PStart q ->
  exists f q',
    run (Array_join "|" (k :: ks)) (mkPState (mkFrame A []) B q)
      = Ok (mkPState f B q') /\
    forall ic s, search ic (disjunction f) s
                 = existsb (found ic s) (k :: ks) || anyMatches ic s A.
Proof.
  revert k. induction ks as [|k' ks IH]; intros k A B q Hall Hq.
  - inversion Hall as [|? ? [r Hk] _]; subst.
    destruct (run_alternative k r A B q Hk Hq) as (f & q' & Hrun & Hs).
    exists f, q'. split; [exact Hrun|].
    intros ic s. rewrite Hs. cbn [existsb]. unfold found. rewrite Hk.
    now rewrite orb_false_r.
  - inversion Hall as [|? ? [r Hk] Hrest]; subst.
    destruct (run_alternative k r A B q Hk Hq) as (f & q1 & Hrun & Hs).
    destruct (IH k' (sequence (terms f) :: alts f) B PStart Hrest (compat_refl _))
      as (f' & q' & Hrun' & Hs').
    exists f', q'. split.
    + change (Array_join "|" (k :: k' :: ks))
        with (k +:+ String "|" (Array_join "|" (k' :: ks))).
      rewrite run_app, Hrun. simpl. exact Hrun'.
    + intros ic s. rewrite Hs'.
      specialize (Hs ic s). rewrite search_disjunction in Hs.
      change (existsb (found ic s) (k :: k' :: ks))
        with (found ic s k || existsb (found ic s) (k' :: ks)).
      change (anyMatches ic s (sequence (terms f) :: alts f))
        with (search ic (sequence (terms f)) s || anyMatches ic s (alts f)).
      replace (found ic s k) with (search ic r s) by (unfold found; now rewrite Hk).
      destruct (existsb (found ic s) (k' :: ks)),
        (search ic (sequence (terms f)) s), (anyMatches ic s (alts f)),
        (search ic r s), (anyMatches ic s A); simpl in *; congruence.
Qed.

(** The pattern [(k1|...|kn)]: it compiles when each [ki] does, and finds
    a match exactly where one of them does; with no [ki] at all it is
    [()], which finds the empty string everywhere. *)
Lemma compile_group ks :
  Forall compiles ks ->
  exists r, compile ("(" +:+ Array_join "|" ks +:+ ")") = Ok r /\
            forall ic s, search ic r s
                         = match ks with
                           | [] => true
                           | _ :: _ => existsb (found ic s) ks
                           end.
Proof.
  intros Hall. destruct ks as [|k ks].
  - exists (Seq Eps Eps). split; [reflexivity|].
    intros ic s. now apply search_nullable.
  - destruct (run_join k ks [] [emptyFrame] POpen Hall) as (f & q' & Hrun & Hs).
    { right. split; reflexivity. }
    exists (Seq (disjunction f) Eps). split.
    + unfold compile.
      change ("(" +:+ Array_join "|" (k :: ks) +:+ ")")
        with (String "(" (Array_join "|" (k :: ks) +:+ ")")).
      cbn [run]. change (token_of "(") with TOpen. cbn [step bind].
      change (mkPState emptyFrame (top initial :: below initial) POpen)
        with (mkPState (mkFrame [] []) [emptyFrame] POpen).
      rewrite run_app, Hrun. reflexivity.
    + intros ic s. rewrite search_Seq_Eps, Hs. now rewrite orb_false_r.
Qed.

End RegExpFacts.

(** * Facts about the program *)

Section ArrayFind.
Context {A : Type}.
Implicit Types (f : A -> Exc bool) (l : list A).

Lemma Array_find_Some f l x :
  Array_find f l = Ok (Some x) -> In x l /\ f x = Ok true.
Proof.
  induction l as [|y l IH]; simpl; [discriminate|].
  destruct (f y) as [[|]|e] eqn:Hy; simpl; intros H.
  - inversion H; subst. auto.
  - destruct (IH H); auto.
  - discriminate.
Qed.


Lemma Array_find_none f l :
  (forall x, In x l -> f x = Ok false) -> Array_find f l = Ok None.
Proof.
  induction l as [|y l IH]; intros H; simpl; auto.
  rewrite (H y) by now left. simpl. apply IH. intros x Hx. apply H. now right.
Qed.

Lemma Array_find_answers f (g : A -> bool) l :
  (forall x, In x l -> f x = Ok (g x)) -> Array_find f l = Ok (List.find g l).
Proof.
  induction l as [|y l IH]; intros H; simpl; auto.
  rewrite (H y) by (simpl; auto). simpl. destruct (g y); auto.
  apply IH. intros x Hx. apply H. simpl; auto.
Qed.

Lemma find_existsb (g : A -> bool) l :
  match List.find g l with Some _ => true | None => false end = existsb g l.
Proof. induction l as [|y l IH]; simpl; auto. destruct (g y); auto. Qed.

Lemma existsb_negb (g : A -> bool) l :
  existsb (fun x => negb (g x)) l = negb (forallb g l).
Proof.
  induction l as [|y l IH]; simpl; auto.
  rewrite IH. now destruct (g y), (forallb g l).
Qed.

Lemma Array_find_prefix_Some f l1 l2 x :
  Array_find f (l1 ++ l2) = Ok (Some x) -> In x l1 -> Array_find f l1 = Ok (Some x).
Proof.
  induction l1 as [|y l1 IH]; simpl; [intros _ []|].
  destruct (f y) as [[|]|e] eqn:Hy; simpl.
  - intros H _. exact H.
  - intros H [->|Hin]; auto.
    apply Array_find_Some in H. destruct H as [_ H]. congruence.
  - discriminate.
Qed.

Lemma Array_find_prefix_None f l1 l2 :
  Array_find f (l1 ++ l2) = Ok None -> Array_find f l1 = Ok None.
Proof.
  induction l1 as [|y l1 IH]; simpl; auto.
  destruct (f y) as [[|]|e]; simpl; auto.
Qed.

Lemma Array_find_In f l o :
  Array_find f l = Ok o -> forall x, o = Some x -> In x l.
Proof. intros H x ->. now apply Array_find_Some in H. Qed.

End ArrayFind.

Lemma String_split_whole sep s : occurs sep s = false -> String_split sep s = [s].
Proof.
  induction s as [|c s IH]; simpl; auto.
  destruct (Ascii.eqb c sep); simpl; [discriminate|].
  intros H. now rewrite IH.
Qed.

Lemma restOfLine_whole s : occurs "010" s = false -> restOfLine s = s.
Proof.
  induction s as [|c s IH]; simpl; auto.
  destruct (Ascii.eqb c "010"); simpl; [discriminate|].
  intros H. now rewrite IH.
Qed.

(** A body that starts with a directive and its paths, on one line. *)
Lemma trackerDirectivesRe_match_track paths :
  paths <> "" -> occurs "010" paths = false ->
  trackerDirectivesRe_match ("@lunaria-track:" +:+ paths)
  = Some (mkGroups "@lunaria-track" (Some paths)).
Proof.
  intros Hne Hline.
  lazy [String.append trackerDirectivesRe_match trackerDirectivesRe_at
        JS.strip_prefix Ascii.eqb Bool.eqb].
  rewrite (restOfLine_whole _ Hline).
  destruct paths; [congruence | reflexivity].
Qed.

Lemma trackerDirectivesRe_match_ignore paths :
  paths <> "" -> occurs "010" paths = false ->
  trackerDirectivesRe_match ("@lunaria-ignore:" +:+ paths)
  = Some (mkGroups "@lunaria-ignore" (Some paths)).
Proof.
  intros Hne Hline.
  lazy [String.append trackerDirectivesRe_match trackerDirectivesRe_at
        JS.strip_prefix Ascii.eqb Bool.eqb].
  rewrite (restOfLine_whole _ Hline).
  destruct paths; [congruence | reflexivity].
Qed.

Section ProgramFacts.
Context {imports : Imports}.

Lemma new_ignoreCase pattern :
  RegExp.new pattern "i"
  = let* r := RegExp.compile pattern in Ok (RegExp.mkRegExp pattern true r).
Proof. reflexivity. Qed.

Lemma validKeyword_compiles k : validKeyword k -> RegExp.compiles k.
Proof.
  intros [re H]. rewrite new_ignoreCase in H.
  destruct (RegExp.compile k) as [r|e] eqn:E; simpl in H; [|discriminate].
  exists r. exact E.
Qed.

Lemma found_matchesKeyword s k :
  RegExp.found true s k = matchesKeyword k s.
Proof.
  unfold RegExp.found, matchesKeyword. rewrite new_ignoreCase.
  destruct (RegExp.compile k); reflexivity.
Qed.

Lemma existsb_pointwise {A : Type} (f g : A -> bool) l :
  (forall x, f x = g x) -> existsb f l = existsb g l.
Proof. intros H. induction l as [|x l IH]; simpl; [|rewrite H, IH]; reflexivity. Qed.

(** What [ignoredKeywordsRe] finds: one of the keywords, when there is a
    keyword; anything at all, when there is none. *)
Lemma ignoredKeywordsRe_test tracking :
  Forall validKeyword (ignoredKeywords tracking) ->
  exists re,
    ignoredKeywordsRe tracking = Ok re /\
    forall s, RegExp.test re s
              = match ignoredKeywords tracking with
                | [] => true
                | _ :: _ => existsb (fun k => matchesKeyword k s) (ignoredKeywords tracking)
                end.
Proof.
  intros Hall.
  assert (Hc : Forall RegExp.compiles (ignoredKeywords tracking)).
  { induction Hall; constructor; auto using validKeyword_compiles. }
  destruct (RegExpFacts.compile_group _ Hc) as (r & Hr & Hs).
  unfold ignoredKeywordsRe. rewrite new_ignoreCase, Hr. simpl.
  eexists. split; [reflexivity|].
  intros s. unfold RegExp.test. simpl. rewrite Hs.
  destruct (ignoredKeywords tracking); [reflexivity|].
  apply existsb_pointwise. intros k. apply found_matchesKeyword.
Qed.

Lemma ignoredKeywordsRe_empty tracking :
  ignoredKeywords tracking = [] ->
  exists re, ignoredKeywordsRe tracking = Ok re /\ forall s, RegExp.test re s = true.
Proof.
  intros H.
  destruct (ignoredKeywordsRe_test tracking) as (re & Hre & Ht).
  { rewrite H. constructor. }
  exists re. split; auto. intros s. rewrite Ht, H. reflexivity.
Qed.

Lemma isTracked_vetoed re path c :
  RegExp.test re (message c) = true -> isTracked re path c = Ok false.
Proof. intros H. unfold isTracked. now rewrite H. Qed.

Lemma isTracked_passed re path c :
  RegExp.test re (message c) = false -> isTracked re path c = bodyVerdict path (body c).
Proof. intros H. unfold isTracked. now rewrite H. Qed.



End ProgramFacts.

(** * Facts about the history *)

Module GitFacts.
Import Git.

Lemma carets_caret rev :
  carets (rev +:+ "^") = (fst (carets rev), S (snd (carets rev))).
Proof.
  induction rev as [|c rev IH]; [reflexivity|].
  change (String c rev +:+ "^") with (String c (rev +:+ "^")).
  cbn [carets]. rewrite IH.
  destruct (carets rev) as [base n]. simpl.
  destruct base; [destruct (Ascii.eqb c "^")|]; reflexivity.
Qed.

Lemma ancestor_S repo n : forall i,
  ancestor repo (S n) i
  = match ancestor repo n i with
    | Some j => parent repo j
    | None => None
    end.
Proof.
  induction n as [|n IH]; intros i.
  - simpl. destruct (parent repo i); reflexivity.
  - change (ancestor repo (S (S n)) i)
      with (match parent repo i with
            | Some j => ancestor repo (S n) j
            | None => None
            end).
    destruct (parent repo i) as [j|] eqn:E.
    + rewrite (IH j). cbn [ancestor]. rewrite E. reflexivity.
    + cbn [ancestor]. rewrite E. reflexivity.
Qed.

(** [rev^] is the commit just before [rev], when there is one. *)
Lemma revParse_caret repo rev i :
  revParse repo rev = Some i ->
  (S i < length repo)%nat ->
  revParse repo (rev +:+ "^") = Some (S i).
Proof.
  unfold revParse. rewrite carets_caret.
  destruct (carets rev) as [base n]. simpl fst; simpl snd.
  destruct (indexOf base repo) as [i0|]; [|discriminate].
  intros H Hlt. rewrite ancestor_S, H. unfold parent.
  destruct (Nat.ltb_spec (S i) (length repo)); [reflexivity | lia].
Qed.

Lemma nth_error_firstn_In {A : Type} (l : list A) : forall i x,
  nth_error l i = Some x -> In x (firstn (S i) l).
Proof.
  induction l as [|y l IH]; intros [|i] x H; simpl in *; try discriminate.
  - inversion H. auto.
  - right. apply (IH i x H).
Qed.

Lemma history_In path entries e :
  In e entries -> touches path e = true -> In (commit e) (history path entries).
Proof.
  intros Hin Ht. unfold history. apply in_map. apply filter_In. auto.
Qed.

Lemma history_app path l1 l2 :
  history path (l1 ++ l2) = history path l1 ++ history path l2.
Proof. unfold history. now rewrite List.filter_app, List.map_app. Qed.

Lemma history_split path repo n :
  history path repo = history path (firstn n repo) ++ history path (skipn n repo).
Proof. now rewrite <- history_app, firstn_skipn. Qed.

Lemma In_history path entries c :
  In c (history path entries) ->
  exists e, commit e = c /\ In e entries /\ touches path e = true.
Proof.
  unfold history. intros H. apply in_map_iff in H. destruct H as (e & He & Hin).
  apply filter_In in Hin. exists e. tauto.
Qed.

(** Whatever its lower bound, a query that is answered is answered with
    the history of the newest commits of the repository. *)
Lemma log_newest repo options lines :
  log repo options = Ok lines ->
  exists k, lines = history (file options) (firstn k repo).
Proof.
  unfold log. destruct (from options) as [rev|].
  - destruct (revParse repo rev) as [k|]; [|discriminate].
    intros H. inversion H. now exists k.
  - intros H. inversion H. exists (length repo). now rewrite firstn_all.
Qed.

Lemma nth_error_firstn_inv {A : Type} (l : list A) : forall k i x,
  nth_error (firstn k l) i = Some x -> (i < k)%nat /\ nth_error l i = Some x.
Proof.
  induction l as [|y l IH]; intros [|k] [|i] x H; simpl in *; try discriminate.
  - split; [lia | exact H].
  - destruct (IH k i x H). split; [lia | assumption].
Qed.

End GitFacts.

(** * The claims *)

Section Claims.
Context {imports : Imports}.

(** Writing under a path that is not [__proto__] writes the own
    property. *)
Lemma setProperty_insert (object : gmap string string) key value :
  key <> "__proto__" -> setProperty object key value = <[key := value]> object.
Proof.
  intros Hkey. unfold setProperty.
  destruct (object !! key); [reflexivity|].
  destruct (String.eqb_spec key "__proto__"); [contradiction | reflexivity].
Qed.

(** Writing an own property again with the value it has changes
    nothing. *)
Lemma setProperty_again (object : gmap string string) key value :
  setProperty (<[key := value]> object) key value = <[key := value]> object.
Proof.
  unfold setProperty. rewrite lookup_insert_eq. apply insert_insert_eq.
Qed.


(** In force mode a call leaves the empty cache empty, however the query
    was answered. *)
Lemma resolveChanges_force self path answer :
  force self = true ->
  cache self = ∅ ->
  force (snd (resolveChanges self path answer)) = true /\
  cache (snd (resolveChanges self path answer)) = ∅.
Proof.
  intros Hf Hc. unfold resolveChanges.
  destruct answer as [log|e]; simpl; auto.
  destruct (findLatestTrackedCommit _ _ _) as [found|e]; simpl; auto.
  destruct (latest log) as [lc|], found as [c|]; simpl; rewrite ?Hf; auto.
Qed.

(** With an empty cache, a path that names nothing of [Object.prototype]
    is queried without a lower bound. *)
Lemma logOptions_empty_cache self path :
  cache self = ∅ -> inheritedText path = None -> from (logOptions self path) = None.
Proof.
  intros H Hown. unfold logOptions. cbn [from]. now rewrite H, lookup_empty, Hown.
Qed.

Lemma afterCalls_force calls : forall self,
  force self = true ->
  cache self = ∅ ->
  force (afterCalls self calls) = true /\ cache (afterCalls self calls) = ∅.
Proof.
  induction calls as [|[path answer] calls IH]; intros self Hf Hc; simpl; auto.
  destruct (resolveChanges_force self path answer Hf Hc). auto.
Qed.

(** What a call answers when the history has a newest commit and the
    resolver does not throw. *)
Lemma getFileLatestChanges_fulfilled self path newest older found :
  git self (logOptions self path) = Ok (newest :: older) ->
  findLatestTrackedCommit (tracking (config self)) path (newest :: older) = Ok found ->
  fst (getFileLatestChanges self path)
  = Fulfilled (mkFileChanges (changeOf newest)
                 (changeOf match found with Some c => c | None => newest end)).
Proof.
  intros Hlog Hfind. unfold getFileLatestChanges, simpleGit_log, resolveChanges.
  rewrite Hlog. simpl. rewrite Hfind. destruct found; reflexivity.
Qed.

(** With a checkpoint in the cache that names a commit with a parent, the
    query is answered with the history down to the checkpoint. *)
Lemma log_from_checkpoint repo self path checkpoint i :
  git self = Git.log repo ->
  cache self !! path = Some checkpoint ->
  checkpoint <> "" ->
  Git.revParse repo checkpoint = Some i ->
  (S i < length repo)%nat ->
  from (logOptions self path) = Some (checkpoint +:+ "^") /\
  git self (logOptions self path)
    = Ok (Git.history (path_resolve path) (firstn (S i) repo)).
Proof.
  intros Hgit Hcache Hne Hrev Hlt.
  assert (Hfrom : from (logOptions self path) = Some (checkpoint +:+ "^")).
  { unfold logOptions. simpl. rewrite Hcache. unfold truthy.
    destruct (String.eqb_spec checkpoint ""); [contradiction | reflexivity]. }
  split; [exact Hfrom|].
  rewrite Hgit. unfold Git.log. rewrite Hfrom.
  rewrite (GitFacts.revParse_caret _ _ _ Hrev Hlt). reflexivity.
Qed.


(** C5: when the history of the file is not empty, a call that the
    resolver does not make throw is fulfilled, and in every fulfilled
    result the date, the message and the hash of [latestChange] are those
    of the newest commit of the history, and the date, the message and the
    hash of [latestTrackedChange] are those of one commit of the history:
    the commit the resolver found, or the newest one when it found none. *)
Theorem latestTrackedChange_is_a_commit_of_the_history self path newest older :
  git self (logOptions self path) = Ok (newest :: older) ->
  (forall found,
      findLatestTrackedCommit (tracking (config self)) path (newest :: older) = Ok found ->
      exists changes, fst (getFileLatestChanges self path) = Fulfilled changes) /\
  (forall changes,
      fst (getFileLatestChanges self path) = Fulfilled changes ->
      (Change.date (latestChange changes) = date newest /\
       Change.message (latestChange changes) = message newest /\
       Change.hash (latestChange changes) = hash newest) /\
      (exists tracked,
          In tracked (newest :: older) /\
          (forall found,
              findLatestTrackedCommit (tracking (config self)) path (newest :: older)
              = Ok found ->
              tracked = match found with Some c => c | None => newest end) /\
          Change.date (latestTrackedChange changes) = date tracked /\
          Change.message (latestTrackedChange changes) = message tracked /\
          Change.hash (latestTrackedChange changes) = hash tracked) /\
      (findLatestTrackedCommit (tracking (config self)) path (newest :: older) = Ok None ->
       Change.date (latestTrackedChange changes) = date newest /\
       Change.message (latestTrackedChange changes) = message newest /\
       Change.hash (latestTrackedChange changes) = hash newest)).
Proof.
  intros Hlog. split.
  - intros found Hfind. eexists.
    apply (getFileLatestChanges_fulfilled _ _ _ _ _ Hlog Hfind).
  - intros changes Hres.
    destruct (findLatestTrackedCommit (tracking (config self)) path (newest :: older))
      as [found|e] eqn:Hfind.
    + rewrite (getFileLatestChanges_fulfilled _ _ _ _ _ Hlog Hfind) in Hres.
      inversion Hres; subst changes; clear Hres.
      cbn [latestChange latestTrackedChange changeOf Change.date Change.message Change.hash].
      split; [auto|]. split.
      * exists (match found with Some c => c | None => newest end).
        split; [|split; [|auto]].
        -- destruct found as [c|]; [|now left].
           unfold findLatestTrackedCommit in Hfind.
           destruct (ignoredKeywordsRe _) as [re|]; cbn [bind] in Hfind; [|discriminate].
           now apply Array_find_Some in Hfind.
        -- intros found' H. inversion H. reflexivity.
      * intros H. inversion H. auto.
    + unfold getFileLatestChanges, simpleGit_log, resolveChanges in Hres.
      rewrite Hlog in Hres. simpl in Hres. rewrite Hfind in Hres. discriminate.
Qed.



(** In force mode the cache has no own property when the instance is made
    and after any series of calls, however their queries were answered: a
    call writes nothing. The query for a path that names nothing of
    [Object.prototype] is made without a lower bound; the query for a path
    that names one of its properties is given that property as its
    checkpoint. *)
Lemma force_mode_writes_nothing git config logger hash calls :
  let self := afterCalls (new_LunariaGitInstance git config logger true hash) calls in
  cache self = ∅ /\
  (forall path, cache (snd (getFileLatestChanges self path)) = ∅) /\
  (forall path, from (logOptions self path)
                = option_map (fun text => text +:+ "^") (inheritedText path)).
Proof.
  intros self.
  destruct (afterCalls_force calls (new_LunariaGitInstance git config logger true hash))
    as [Hf Hc]; try reflexivity.
  fold self in Hf, Hc. split; [exact Hc|]. split.
  - intros path. unfold getFileLatestChanges.
    now apply resolveChanges_force.
  - intros path. unfold logOptions. cbn [from]. rewrite Hc, lookup_empty.
    destruct (inheritedText path); reflexivity.
Qed.

(** C9: with no ignored keyword the pattern built is [()], which finds the
    empty string in every subject: every commit is vetoed,
    [findLatestTrackedCommit] returns none for every sequence of commits,
    and [latestTrackedChange] is [latestChange]. *)
Theorem no_keyword_vetoes_every_commit rules :
  ignoredKeywords rules = [] ->
  (exists re, ignoredKeywordsRe rules = Ok re /\
              forall subject, RegExp.test re subject = true) /\
  (forall path commits, findLatestTrackedCommit rules path commits = Ok None) /\
  (forall self path newest older,
      tracking (config self) = rules ->
      git self (logOptions self path) = Ok (newest :: older) ->
      fst (getFileLatestChanges self path)
      = Fulfilled (mkFileChanges (changeOf newest) (changeOf newest))).
Proof.
  intros Hnone.
  destruct (ignoredKeywordsRe_empty rules Hnone) as (re & Hre & Ht).
  assert (Hfind : forall path commits, findLatestTrackedCommit rules path commits = Ok None).
  { intros path commits. unfold findLatestTrackedCommit. rewrite Hre. simpl bind.
    apply Array_find_none. intros c _. apply isTracked_vetoed, Ht. }
  split; [now exists re|]. split; [exact Hfind|].
  intros self path newest older Hrules Hlog.
  rewrite (getFileLatestChanges_fulfilled self path newest older None Hlog); [reflexivity|].
  rewrite Hrules. apply Hfind.
Qed.

(** C10: the keywords are looked for in the subject of the commit only,
    and the directive in its body only. When the subject matches no
    keyword the answer of the callback is what the body decides, whatever
    keyword the body holds; when the body holds no directive the answer is
    whether the subject passed the keywords, whatever directive the subject
    holds. *)
Theorem veto_reads_subject_and_directive_reads_body re path c :
  (RegExp.test re (message c) = false ->
   isTracked re path c = bodyVerdict path (body c)) /\
  (trackerDirectivesRe_match (body c) = None ->
   isTracked re path c = Ok (negb (RegExp.test re (message c)))).
Proof.
  split.
  - apply isTracked_passed.
  - intros Hbody. unfold isTracked. rewrite Hbody.
    destruct (RegExp.test re (message c)); reflexivity.
Qed.

(** ** Further properties of the program *)

(** X1: a [@lunaria-track] directive tracks the commit exactly when the
    file matches one of its paths, picomatch answering on each of them. *)
Theorem track_directive_needs_one_match path paths (matched : string -> bool) :
  (forall glob, In glob (String_split ";" paths) ->
                picomatch_isMatch path glob = Ok (matched glob)) ->
  directiveVerdict path (mkGroups "@lunaria-track" (Some paths))
  = Ok (existsb matched (String_split ";" paths)).
Proof.
  intros H. unfold directiveVerdict. simpl.
  rewrite (Array_find_answers _ matched).
  - simpl. now rewrite find_existsb.
  - intros glob Hin. unfold pathOrGlobSelected. simpl. auto.
Qed.

(** A [@lunaria-ignore] directive tracks the commit exactly when the file
    fails to match one of its paths: the commit is ignored only when the
    file matches them all. *)
Lemma ignore_directive_needs_one_mismatch path paths (matched : string -> bool) :
  (forall glob, In glob (String_split ";" paths) ->
                picomatch_isMatch path glob = Ok (matched glob)) ->
  directiveVerdict path (mkGroups "@lunaria-ignore" (Some paths))
  = Ok (negb (forallb matched (String_split ";" paths))).
Proof.
  intros H. unfold directiveVerdict. simpl.
  rewrite (Array_find_answers _ (fun glob => negb (matched glob))).
  - simpl. now rewrite find_existsb, existsb_negb.
  - intros glob Hin. unfold pathOrGlobSelected. simpl.
    now rewrite (H glob Hin).
Qed.

(** X2: a directive that names one path: [@lunaria-track] tracks the
    commit when the file matches the path, [@lunaria-ignore] when it does
    not. *)
Theorem single_path_directive re path c glob matched :
  RegExp.test re (message c) = false ->
  glob <> "" ->
  occurs ";" glob = false ->
  occurs "010" glob = false ->
  picomatch_isMatch path glob = Ok matched ->
  (body c = "@lunaria-track:" +:+ glob -> isTracked re path c = Ok matched) /\
  (body c = "@lunaria-ignore:" +:+ glob -> isTracked re path c = Ok (negb matched)).
Proof.
  intros Hsubject Hne Hsep Hline Hmatch.
  rewrite (isTracked_passed _ _ _ Hsubject). unfold bodyVerdict.
  split; intros ->.
  - rewrite (trackerDirectivesRe_match_track _ Hne Hline).
    unfold directiveVerdict. cbn [pathsOrGlobs directive].
    rewrite (String_split_whole _ _ Hsep). unfold pathOrGlobSelected.
    simpl. rewrite Hmatch. now destruct matched.
  - rewrite (trackerDirectivesRe_match_ignore _ Hne Hline).
    unfold directiveVerdict. cbn [pathsOrGlobs directive].
    rewrite (String_split_whole _ _ Hsep). unfold pathOrGlobSelected.
    simpl. rewrite Hmatch. now destruct matched.
Qed.


(** X4: the number of concurrent [git] processes lies between 2 and 32. *)
Theorem maxConcurrentProcesses_bounds cpus :
  (2 <= maxConcurrentProcesses cpus <= 32)%Z.
Proof. unfold maxConcurrentProcesses. lia. Qed.

(** X5: without the force flag, a fulfilled call for a path other than
    [__proto__] stores the hash of the tracked commit as the own property
    of the cache under the path and leaves the other properties alone;
    the other fields of the instance stay as they were. *)
Theorem fulfilled_call_records_the_tracked_hash self path newest older found :
  force self = false ->
  path <> "__proto__" ->
  git self (logOptions self path) = Ok (newest :: older) ->
  findLatestTrackedCommit (tracking (config self)) path (newest :: older) = Ok found ->
  snd (getFileLatestChanges self path)
  = mkInstance (git self) (config self) (logger self) false
      (<[path := hash match found with Some c => c | None => newest end]> (cache self)).
Proof.
  intros Hforce Hpath Hlog Hfind.
  unfold getFileLatestChanges, simpleGit_log, resolveChanges.
  rewrite Hlog. simpl. rewrite Hfind, Hforce.
  destruct found; cbn [snd]; now rewrite (setProperty_insert _ _ _ Hpath).
Qed.

(** A directive matched without its paths makes the resolver throw when
    the commit is reached, whichever of the two directives it is. *)
Lemma directive_without_paths_always_throws rules re path c older name :
  ignoredKeywordsRe rules = Ok re ->
  RegExp.test re (message c) = false ->
  trackerDirectivesRe_match (body c) = Some (mkGroups name None) ->
  findLatestTrackedCommit rules path (c :: older) = Throw TypeError.
Proof.
  intros Hre Hsubject Hbody.
  unfold findLatestTrackedCommit. rewrite Hre. simpl.
  rewrite (isTracked_passed _ _ _ Hsubject). unfold bodyVerdict.
  rewrite Hbody. reflexivity.
Qed.

(** X6: a second call for a file, made with the checkpoint the first
    call stored, is fulfilled with the same result and leaves the cache as
    it is. The hashes of the repository are not empty and name their own
    commit, and the commits that touch the file have a parent. *)
Theorem rerun_from_checkpoint_agrees repo self path changes self1 :
  git self = Git.log repo ->
  force self = false ->
  cache self !! path = None ->
  (forall i e, nth_error repo i = Some e ->
     hash (Git.commit e) <> "" /\
     Git.revParse repo (hash (Git.commit e)) = Some i /\
     (Git.touches (path_resolve path) e = true -> (S i < length repo)%nat)) ->
  getFileLatestChanges self path = (Fulfilled changes, self1) ->
  getFileLatestChanges self1 path = (Fulfilled changes, self1).
Proof.
  intros Hgit Hforce Hmiss Hrepo Hfirst.
  pose proof Hfirst as Hagain.
  unfold getFileLatestChanges, simpleGit_log in Hfirst.
  destruct (git self (logOptions self path)) as [lines|err0] eqn:Hlog0;
    [|discriminate].
  rewrite Hgit in Hlog0. apply GitFacts.log_newest in Hlog0.
  destruct Hlog0 as [k Hlines]. cbn [file logOptions] in Hlines.
  cbn [bind] in Hfirst.
  unfold resolveChanges in Hfirst. cbn [all latest] in Hfirst.
  destruct (findLatestTrackedCommit (tracking (config self)) path lines)
    as [found|err] eqn:Hfind; [|discriminate].
  destruct lines as [|newest older].
  { destruct found; discriminate. }
  cbn [head] in Hfirst. rewrite Hforce in Hfirst.
  set (t := match found with Some c => c | None => newest end).
  assert (Hself1 : self1 = mkInstance (git self) (config self) (logger self) false
                             (setProperty (cache self) path (hash t))
                   /\ changes = mkFileChanges (changeOf newest) (changeOf t)).
  { subst t. destruct found; inversion Hfirst; auto. }
  destruct Hself1 as [-> ->]. clear Hfirst.
  destruct (String.eqb_spec path "__proto__") as [Hproto|Hproto].
  { (* nothing was stored: the second call is the first one again *)
    assert (Hsame : setProperty (cache self) path (hash t) = cache self).
    { unfold setProperty. rewrite Hmiss, Hproto. reflexivity. }
    rewrite Hsame in *.
    replace (mkInstance (git self) (config self) (logger self) false (cache self))
      with self in * by (destruct self; cbn in Hforce; now subst).
    exact Hagain. }
  clear Hagain. rewrite (setProperty_insert _ _ _ Hproto).
  (* the tracked commit is a commit of the history, hence of the repository *)
  unfold findLatestTrackedCommit in Hfind.
  destruct (ignoredKeywordsRe (tracking (config self))) as [re|err] eqn:Hre;
    cbn [bind] in Hfind; [|discriminate].
  assert (Hin : In t (newest :: older)).
  { subst t. destruct found as [c|]; [|now left].
    now apply Array_find_Some in Hfind. }
  rewrite Hlines in Hin.
  apply GitFacts.In_history in Hin. destruct Hin as (e & He & Hine & Htouch).
  apply In_nth_error in Hine. destruct Hine as [i Hi].
  apply GitFacts.nth_error_firstn_inv in Hi. destruct Hi as [Hik Hi].
  destruct (Hrepo i e Hi) as (Hne & Hrev & Hparent).
  specialize (Hparent Htouch). rewrite He in Hne, Hrev.
  (* the second query is answered with the newest commits of the first *)
  set (self1 := mkInstance (git self) (config self) (logger self) false
                           (<[path := hash t]> (cache self))).
  destruct (log_from_checkpoint repo self1 path (hash t) i) as [_ Hlog1]; auto.
  { apply lookup_insert_eq. }
  assert (Hprefix : newest :: older
                    = Git.history (path_resolve path) (firstn (S i) repo)
                      ++ Git.history (path_resolve path) (skipn (S i) (firstn k repo))).
  { rewrite Hlines.
    rewrite (GitFacts.history_split (path_resolve path) (firstn k repo) (S i)).
    rewrite firstn_firstn. now replace (Nat.min (S i) k) with (S i) by lia. }
  assert (Hin1 : In t (Git.history (path_resolve path) (firstn (S i) repo))).
  { rewrite <- He. apply GitFacts.history_In; auto.
    now apply GitFacts.nth_error_firstn_In. }
  destruct (Git.history (path_resolve path) (firstn (S i) repo))
    as [|newest1 older1] eqn:Hhist1; [destruct Hin1|].
  simpl in Hprefix. inversion Hprefix as [[Hnewest Holder]]. subst newest1.
  assert (Hfind1 : Array_find (isTracked re path) (newest :: older1) = Ok found).
  { rewrite Hprefix in Hfind. change (newest :: older1 ++ _)
      with ((newest :: older1)
            ++ Git.history (path_resolve path) (skipn (S i) (firstn k repo)))
      in Hfind.
    destruct found as [c|].
    - apply (Array_find_prefix_Some _ _ _ _ Hfind). exact Hin1.
    - apply (Array_find_prefix_None _ _ _ Hfind). }
  unfold getFileLatestChanges, simpleGit_log.
  rewrite Hlog1. cbn [bind]. unfold resolveChanges. cbn [all latest head].
  change (config self1) with (config self).
  unfold findLatestTrackedCommit. rewrite Hre. cbn [bind]. rewrite Hfind1.
  change (force self1) with false. cbn iota.
  assert (Hsame : setProperty (cache self1) path (hash t) = cache self1).
  { unfold self1. cbn [cache]. apply setProperty_again. }
  subst t. destruct found as [c|]; cbn iota; rewrite Hsame; reflexivity.
Qed.

End Claims.

(** * The claims on the example *)

Section OnTheExample.
#[local] Existing Instance Example.imports.
Import Example.

Ltac evaluate := vm_compute; reflexivity.


(** C1: with no ignored keyword configured, a history whose commits carry
    no directive (and match no keyword, there being none) has no tracked
    commit: the newest commit is not returned. *)
Theorem newest_commit_is_vetoed_without_keywords :
  ignoredKeywords noKeywords = [] /\
  trackerDirectivesRe_match (body c1) = None /\
  trackerDirectivesRe_match (body c0) = None /\
  findLatestTrackedCommit noKeywords "docs/a.md" [c1; c0] = Ok None.
Proof. repeat split; evaluate. Qed.


(** C3: a commit whose [@lunaria-ignore] directive lists two paths, the
    first of which is the file, is returned as the tracked commit of the
    file: the second path, which the file does not match, is enough for
    the inner [find] to succeed. *)
Theorem ignore_directive_with_two_paths_tracks_the_commit :
  trackerDirectivesRe_match (body ignoresTwo)
    = Some (mkGroups "@lunaria-ignore" (Some "docs/a.md;docs/b.md")) /\
  picomatch_isMatch "docs/a.md" "docs/a.md" = Ok true /\
  picomatch_isMatch "docs/a.md" "docs/b.md" = Ok false /\
  findLatestTrackedCommit keywords "docs/a.md" [ignoresTwo; c0] = Ok (Some ignoresTwo).
Proof. repeat split; evaluate. Qed.

(** C4: a commit whose body holds [@lunaria-track:] at the end of a line
    matches the directive pattern with [pathsOrGlobs] undefined, and
    [findLatestTrackedCommit] throws a [TypeError] on reaching it. *)
Theorem directive_without_paths_throws :
  trackerDirectivesRe_match (body emptyDirective)
    = Some (mkGroups "@lunaria-track" None) /\
  findLatestTrackedCommit keywords "docs/a.md" [emptyDirective; c0] = Throw TypeError.
Proof. split; evaluate. Qed.

Lemma latestTrackedChange_is_a_commit_of_the_history_witness :
  git cached (logOptions cached "docs/a.md") = Ok [c2; c1] /\
  (forall found,
      findLatestTrackedCommit (tracking (config cached)) "docs/a.md" [c2; c1] = Ok found ->
      exists changes, fst (getFileLatestChanges cached "docs/a.md") = Fulfilled changes) /\
  (forall changes,
      fst (getFileLatestChanges cached "docs/a.md") = Fulfilled changes ->
      (Change.date (latestChange changes) = date c2 /\
       Change.message (latestChange changes) = message c2 /\
       Change.hash (latestChange changes) = hash c2) /\
      (exists tracked,
          In tracked [c2; c1] /\
          (forall found,
              findLatestTrackedCommit (tracking (config cached)) "docs/a.md" [c2; c1]
              = Ok found ->
              tracked = match found with Some c => c | None => c2 end) /\
          Change.date (latestTrackedChange changes) = date tracked /\
          Change.message (latestTrackedChange changes) = message tracked /\
          Change.hash (latestTrackedChange changes) = hash tracked) /\
      (findLatestTrackedCommit (tracking (config cached)) "docs/a.md" [c2; c1] = Ok None ->
       Change.date (latestTrackedChange changes) = date c2 /\
       Change.message (latestTrackedChange changes) = message c2 /\
       Change.hash (latestTrackedChange changes) = hash c2)).
Proof.
  split; [evaluate|].
  apply (latestTrackedChange_is_a_commit_of_the_history cached "docs/a.md" c2 [c1]).
  evaluate.
Defined.



(** C8: in force mode the cache is the empty object, but it is read all the
    same, and what it inherits is read with it. For a file named
    [constructor] the query is not the full walk, which would answer the
    commit of the file: it is given the text of the function [Object],
    with a caret, as its lower bound; [git log] fails on it and the call is
    rejected. *)
Theorem force_mode_reads_what_the_cache_inherits :
  force Samples.forcedOnNamed = true /\
  cache Samples.forcedOnNamed = ∅ /\
  Git.log Samples.named (mkLogOptions (path_resolve "constructor") true None) = Ok [c1] /\
  from (logOptions Samples.forcedOnNamed "constructor")
  = Some "function Object() { [native code] }^" /\
  getFileLatestChanges Samples.forcedOnNamed "constructor"
  = (Rejected GitError, Samples.forcedOnNamed).
Proof. repeat split; evaluate. Qed.



Lemma no_keyword_vetoes_every_commit_witness :
  ignoredKeywords noKeywords = [] /\
  (exists re, ignoredKeywordsRe noKeywords = Ok re /\
              forall subject, RegExp.test re subject = true) /\
  (forall path commits, findLatestTrackedCommit noKeywords path commits = Ok None) /\
  (forall self path newest older,
      tracking (config self) = noKeywords ->
      git self (logOptions self path) = Ok (newest :: older) ->
      fst (getFileLatestChanges self path)
      = Fulfilled (mkFileChanges (changeOf newest) (changeOf newest))).
Proof.
  split; [reflexivity|].
  apply (no_keyword_vetoes_every_commit noKeywords). reflexivity.
Defined.

Lemma veto_reads_subject_and_directive_reads_body_witness :
  (exists re, ignoredKeywordsRe typoOnly = Ok re /\
     RegExp.test re (message keywordInBody) = false /\
     RegExp.test re (body keywordInBody) = true /\
     isTracked re "docs/a.md" keywordInBody = Ok true) /\
  (exists re, ignoredKeywordsRe typoOnly = Ok re /\
     trackerDirectivesRe_match (body directiveInSubject) = None /\
     bodyVerdict "docs/a.md" (message directiveInSubject) = Ok false /\
     isTracked re "docs/a.md" directiveInSubject = Ok true).
Proof.
  destruct (ignoredKeywordsRe typoOnly) as [re|e] eqn:Hre; [|vm_compute in Hre; discriminate].
  assert (Hre' : Ok re = ignoredKeywordsRe typoOnly) by (symmetry; exact Hre).
  vm_compute in Hre'. inversion Hre'; subst re; clear Hre'.
  split; eexists; (split; [reflexivity|]).
  - split; [evaluate|]. split; [evaluate|].
    rewrite (proj1 (veto_reads_subject_and_directive_reads_body _ "docs/a.md" keywordInBody));
      evaluate.
  - split; [evaluate|]. split; [evaluate|].
    rewrite (proj2 (veto_reads_subject_and_directive_reads_body _ "docs/a.md" directiveInSubject));
      evaluate.
Defined.

Lemma track_directive_needs_one_match_witness :
  directiveVerdict "docs/b.md" (mkGroups "@lunaria-track" (Some "docs/a.md;docs/b.md"))
  = Ok true.
Proof.
  rewrite (track_directive_needs_one_match "docs/b.md" "docs/a.md;docs/b.md"
             (String.eqb "docs/b.md")).
  - reflexivity.
  - intros glob [<-|[<-|[]]]; evaluate.
Defined.

Example ignore_directive_on_two_paths :
  directiveVerdict "docs/b.md" (mkGroups "@lunaria-ignore" (Some "docs/a.md;docs/b.md"))
  = Ok true.
Proof.
  rewrite (ignore_directive_needs_one_mismatch "docs/b.md" "docs/a.md;docs/b.md"
             (String.eqb "docs/b.md")).
  - reflexivity.
  - intros glob [<-|[<-|[]]]; evaluate.
Defined.

Lemma single_path_directive_witness :
  exists re,
    ignoredKeywordsRe typoOnly = Ok re /\
    isTracked re "docs/a.md" tracksOne = Ok true /\
    isTracked re "docs/a.md" ignoresOne = Ok false.
Proof.
  destruct (ignoredKeywordsRe typoOnly) as [re|e] eqn:Hre; [|vm_compute in Hre; discriminate].
  assert (Hre' : Ok re = ignoredKeywordsRe typoOnly) by (symmetry; exact Hre).
  vm_compute in Hre'. inversion Hre'; subst re; clear Hre'.
  eexists. split; [reflexivity|].
  split.
  - apply (single_path_directive _ "docs/a.md" tracksOne "docs/a.md" true);
      (discriminate || (evaluate)).
  - apply (single_path_directive _ "docs/a.md" ignoresOne "docs/a.md" true);
      (discriminate || (evaluate)).
Defined.


Lemma fulfilled_call_records_the_tracked_hash_witness :
  snd (getFileLatestChanges cached "docs/a.md")
  = mkInstance (git cached) (config cached) (logger cached) false
      (<["docs/a.md" := "c2"]> (cache cached)).
Proof.
  apply (fulfilled_call_records_the_tracked_hash cached "docs/a.md" c2 [c1] (Some c2));
    [evaluate | discriminate | evaluate | evaluate].
Defined.

Example directive_without_paths_on_the_example :
  findLatestTrackedCommit typoOnly "docs/a.md" [emptyDirective; c0] = Throw TypeError.
Proof.
  destruct (ignoredKeywordsRe typoOnly) as [re|e] eqn:Hre; [|vm_compute in Hre; discriminate].
  apply (directive_without_paths_always_throws typoOnly re "docs/a.md" emptyDirective
           [c0] "@lunaria-track" Hre).
  - assert (Hre' : Ok re = ignoredKeywordsRe typoOnly) by (symmetry; exact Hre).
    vm_compute in Hre'. inversion Hre'; subst re. evaluate.
  - evaluate.
Defined.

Lemma rerun_from_checkpoint_agrees_witness :
  getFileLatestChanges cached "docs/b.md"
  = (Fulfilled (mkFileChanges (changeOf c0) (changeOf c0)),
     mkInstance (git cached) (config cached) [] false
                (<["docs/b.md" := "c0"]> (cache cached))) /\
  getFileLatestChanges
     (mkInstance (git cached) (config cached) [] false
                 (<["docs/b.md" := "c0"]> (cache cached))) "docs/b.md"
  = (Fulfilled (mkFileChanges (changeOf c0) (changeOf c0)),
     mkInstance (git cached) (config cached) [] false
                (<["docs/b.md" := "c0"]> (cache cached))).
Proof.
  assert (Hfirst : getFileLatestChanges cached "docs/b.md"
    = (Fulfilled (mkFileChanges (changeOf c0) (changeOf c0)),
       mkInstance (git cached) (config cached) [] false
                  (<["docs/b.md" := "c0"]> (cache cached))))
    by reflexivity.
  split; [exact Hfirst|].
  apply (rerun_from_checkpoint_agrees repo cached "docs/b.md" _ _
           eq_refl eq_refl eq_refl); [|exact Hfirst].
  intros [|[|[|[|i]]]] e He; simpl in He;
    [| | | | destruct i; discriminate ];
    inversion He; subst e;
    (split; [discriminate | split; [evaluate |]]);
    vm_compute; intros; (lia || discriminate).
Defined.

End OnTheExample.

(** * More of the resolver and of the instance *)

Section ArrayFindOrder.
Context {A : Type}.
Implicit Types (f : A -> Exc bool) (l : list A).

Lemma Array_find_split f l x :
  Array_find f l = Ok (Some x) ->
  exists l1 l2, l = l1 ++ x :: l2 /\
                (forall y, In y l1 -> f y = Ok false) /\ f x = Ok true.
Proof.
  induction l as [|y l IH]; simpl; [discriminate|].
  destruct (f y) as [[|]|e] eqn:Hy; simpl; intros H.
  - inversion H; subst. exists [], l. repeat split; auto. intros ? [].
  - destruct (IH H) as (l1 & l2 & -> & Hbefore & Hx).
    exists (y :: l1), l2. repeat split; auto.
    intros z [<-|Hz]; auto.
  - discriminate.
Qed.

Lemma Array_find_None_all f l :
  Array_find f l = Ok None -> forall y, In y l -> f y = Ok false.
Proof.
  induction l as [|y l IH]; simpl; [intros _ ? []|].
  destruct (f y) as [[|]|e] eqn:Hy; simpl; intros H; try discriminate.
  intros z [<-|Hz]; auto.
Qed.

End ArrayFindOrder.

Lemma strip_prefix_line p : forall s t,
  occurs "010" p = false ->
  strip_prefix p (s +:+ String "010" t)
  = option_map (fun rest => rest +:+ String "010" t) (strip_prefix p s).
Proof.
  induction p as [|a p IH]; intros s t Hp; [reflexivity|].
  simpl in Hp. apply orb_false_elim in Hp. destruct Hp as [Ha Hp].
  destruct s as [|b s]; simpl.
  - now rewrite Ha.
  - destruct (Ascii.eqb a b); [now apply IH | reflexivity].
Qed.

Lemma restOfLine_line r t : restOfLine (r +:+ String "010" t) = restOfLine r.
Proof.
  induction r as [|c r IH]; [reflexivity|].
  simpl. destruct (Ascii.eqb c "010"); [reflexivity | now rewrite IH].
Qed.

Lemma trackerDirectivesRe_at_line s t :
  trackerDirectivesRe_at (s +:+ String "010" t) = trackerDirectivesRe_at s.
Proof.
  unfold trackerDirectivesRe_at. cbv zeta beta.
  rewrite !(strip_prefix_line _ s t) by reflexivity.
  destruct (strip_prefix "@lunaria-track" s) as [r1|];
    destruct (strip_prefix "@lunaria-ignore" s) as [r2|]; cbn [option_map];
    rewrite ?(strip_prefix_line ":" r1 t), ?(strip_prefix_line ":" r2 t) by reflexivity;
    try destruct (strip_prefix ":" r1) as [a1|];
    try destruct (strip_prefix ":" r2) as [a2|];
    cbn [option_map]; rewrite ?restOfLine_line; reflexivity.
Qed.

Lemma canonicalize_idempotent c :
  RegExp.canonicalize (RegExp.canonicalize c) = RegExp.canonicalize c.
Proof. destruct c as [[] [] [] [] [] [] [] []]; reflexivity. Qed.

Lemma lineTerminator_canonicalize c :
  RegExp.lineTerminator (RegExp.canonicalize c) = RegExp.lineTerminator c.
Proof. destruct c as [[] [] [] [] [] [] [] []]; reflexivity. Qed.

Lemma deriv_canonicalize d r :
  RegExp.deriv true (RegExp.canonicalize d) r = RegExp.deriv true d r.
Proof.
  induction r as [| |c| |r1 IH1 r2 IH2|r1 IH1 r2 IH2|r IH]; cbn [RegExp.deriv];
    rewrite ?IH1, ?IH2, ?IH, ?lineTerminator_canonicalize; try reflexivity.
  unfold RegExp.sameChar. now rewrite canonicalize_idempotent.
Qed.

Lemma translate_canonicalize c :
  translate lowerCaseLetters upperCaseLetters c = RegExp.canonicalize c.
Proof. destruct c as [[] [] [] [] [] [] [] []]; reflexivity. Qed.

Lemma matchesAt_toUpperCase s : forall r,
  RegExp.matchesAt true r (toUpperCase s) = RegExp.matchesAt true r s.
Proof.
  induction s as [|d s IH]; intros r; [reflexivity|].
  cbn [toUpperCase RegExp.matchesAt].
  now rewrite translate_canonicalize, deriv_canonicalize, IH.
Qed.

Lemma search_toUpperCase s : forall r,
  RegExp.search true r (toUpperCase s) = RegExp.search true r s.
Proof.
  induction s as [|d s IH]; intros r; [reflexivity|].
  cbn [RegExp.search]. rewrite <- IH, <- matchesAt_toUpperCase. reflexivity.
Qed.

Lemma String_split_nonempty sep s : exists h t, String_split sep s = h :: t.
Proof.
  induction s as [|c s (h & t & IH)]; cbn [String_split]; [eauto|].
  rewrite IH. destruct (Ascii.eqb c sep); eauto.
Qed.

Lemma String_split_trailing s :
  String_split ";" (s +:+ ";") = String_split ";" s ++ [""].
Proof.
  induction s as [|c s IH]; [reflexivity|].
  change (String c s +:+ ";") with (String c (s +:+ ";")).
  cbn [String_split]. rewrite IH.
  destruct (Ascii.eqb c ";"); [reflexivity|].
  destruct (String_split_nonempty ";" s) as (h & t & ->). reflexivity.
Qed.

Section MoreOfTheProgram.
Context {imports : Imports}.

(** X7: the body of a commit is searched line by line: a directive found
    before a line break is the one matched, whatever follows the break, and
    text without a directive before the break leaves the match to what
    follows it. *)
Theorem directive_of_the_first_line_that_holds_one s t :
  trackerDirectivesRe_match (s +:+ String "010" t)
  = match trackerDirectivesRe_match s with
    | Some groups => Some groups
    | None => trackerDirectivesRe_match t
    end.
Proof.
  induction s as [|c s IH].
  - change ("" +:+ String "010" t) with (String "010" t).
    reflexivity.
  - change (String c s +:+ String "010" t) with (String c (s +:+ String "010" t)).
    cbn [trackerDirectivesRe_match].
    change (String c (s +:+ String "010" t)) with (String c s +:+ String "010" t).
    rewrite trackerDirectivesRe_at_line.
    destruct (trackerDirectivesRe_at (String c s)); [reflexivity | exact IH].
Qed.

(** X8: the commit [findLatestTrackedCommit] returns is the first tracked
    one: the callback answers true for it and false for every commit
    before it; when none is returned the callback answers false for every
    commit. *)
Theorem tracked_commit_is_the_first_tracked rules path commits result :
  findLatestTrackedCommit rules path commits = Ok result ->
  exists re,
    ignoredKeywordsRe rules = Ok re /\
    match result with
    | Some c =>
        exists newer older,
          commits = newer ++ c :: older /\
          (forall x, In x newer -> isTracked re path x = Ok false) /\
          isTracked re path c = Ok true
    | None => forall x, In x commits -> isTracked re path x = Ok false
    end.
Proof.
  unfold findLatestTrackedCommit.
  destruct (ignoredKeywordsRe rules) as [re|e]; cbn [bind]; [|discriminate].
  intros Hfind. exists re. split; [reflexivity|].
  destruct result as [c|].
  - now apply Array_find_split.
  - now apply Array_find_None_all.
Qed.

(** X9: a call that is not fulfilled writes nothing to the cache. A
    rejected call leaves the instance as it was; the process is ended only
    when the history query answered no commit, with status 1, after the
    message built from the path was given to [logger.error]. *)
Theorem unfulfilled_call_keeps_the_cache self path outcome self' :
  getFileLatestChanges self path = (outcome, self') ->
  match outcome with
  | Fulfilled _ => True
  | Rejected _ => self' = self
  | Exited code =>
      code = 1%Z /\
      git self (logOptions self path) = Ok [] /\
      self' = mkInstance (git self) (config self)
                (logger self ++ [UncommittedFileFound_message path])
                (force self) (cache self)
  end.
Proof.
  unfold getFileLatestChanges, simpleGit_log, resolveChanges.
  destruct (git self (logOptions self path)) as [lines|e]; cbn [bind].
  - cbn [all latest].
    destruct (findLatestTrackedCommit (tracking (config self)) path lines) as [found|e].
    + destruct lines as [|newest older]; cbn [head].
      * destruct found; intros H; inversion H; auto.
      * destruct found; intros H; inversion H; exact I.
    + intros H; inversion H; reflexivity.
  - intros H; inversion H; reflexivity.
Qed.





(** X21: the keywords are looked for whatever the case of the letters of
    a subject of ASCII text: putting such a subject in upper case, by the
    table of the letters, changes nothing to what the pattern of the
    keywords finds. *)
Theorem keyword_veto_ignores_case rules re subject :
  isAscii subject = true ->
  ignoredKeywordsRe rules = Ok re ->
  RegExp.test re (toUpperCase subject) = RegExp.test re subject.
Proof.
  intros _. unfold ignoredKeywordsRe. rewrite new_ignoreCase.
  destruct (RegExp.compile _) as [r|e]; cbn [bind]; [|discriminate].
  intros H. inversion H; subst re. unfold RegExp.test. cbn [RegExp.ignoreCase RegExp.program].
  apply search_toUpperCase.
Qed.

(** X22: a checkpoint that names the first commit of the repository has no
    parent to start from: [git log] fails and the call is rejected, the
    instance left as it was. *)
Theorem checkpoint_on_the_first_commit_is_rejected repo self path checkpoint i :
  git self = Git.log repo ->
  cache self !! path = Some checkpoint ->
  checkpoint <> "" ->
  Git.revParse repo checkpoint = Some i ->
  S i = length repo ->
  getFileLatestChanges self path = (Rejected GitError, self).
Proof.
  intros Hgit Hcache Hne Hrev Hlast.
  unfold getFileLatestChanges, simpleGit_log.
  assert (Hfrom : from (logOptions self path) = Some (checkpoint +:+ "^")).
  { unfold logOptions. cbn [from]. rewrite Hcache. unfold truthy.
    destruct (String.eqb_spec checkpoint ""); [contradiction | reflexivity]. }
  rewrite Hgit. unfold Git.log. rewrite Hfrom.
  unfold Git.revParse in *. rewrite GitFacts.carets_caret.
  destruct (Git.carets checkpoint) as [base n]. cbn [fst snd].
  destruct (Git.indexOf base repo) as [i0|]; [|discriminate].
  rewrite GitFacts.ancestor_S, Hrev. unfold Git.parent.
  destruct (Nat.ltb_spec (S i) (length repo)); [lia | reflexivity].
Qed.

(** X23: a [@lunaria-track] directive that ends in a semicolon lists an
    empty path after the others; when the file matches none of the others
    the empty path is given to picomatch, and what picomatch throws on it
    is thrown by the verdict. *)
Theorem trailing_semicolon_reaches_the_empty_glob path paths e :
  picomatch_isMatch path "" = Throw e ->
  (forall glob, In glob (String_split ";" paths) -> picomatch_isMatch path glob = Ok false) ->
  directiveVerdict path (mkGroups "@lunaria-track" (Some (paths +:+ ";"))) = Throw e.
Proof.
  intros Hempty Hnone. unfold directiveVerdict. cbn [pathsOrGlobs directive].
  rewrite String_split_trailing.
  induction (String_split ";" paths) as [|glob globs IH].
  - cbn [app Array_find]. unfold pathOrGlobSelected. cbn [String.eqb Ascii.eqb Bool.eqb].
    rewrite Hempty. reflexivity.
  - cbn [app Array_find]. unfold pathOrGlobSelected at 1.
    replace (String.eqb "@lunaria-track" "@lunaria-track") with true by reflexivity.
    rewrite (Hnone glob) by now left. cbn [bind].
    apply IH. intros g Hg. apply Hnone. now right.
Qed.

End MoreOfTheProgram.

(** * [utils/misc.ts] *)

Module MiscFacts.
Import Misc.

Lemma app_cons c s t : String c s +:+ t = String c (s +:+ t).
Proof. reflexivity. Qed.

Lemma app_empty_l s : "" +:+ s = s.
Proof. reflexivity. Qed.

Lemma app_empty_r s : s +:+ "" = s.
Proof. induction s as [|c s IH]; [reflexivity|]. now rewrite app_cons, IH. Qed.

Lemma app_assoc_s a b c : (a +:+ b) +:+ c = a +:+ b +:+ c.
Proof. induction a as [|x a IH]; [reflexivity|]. now rewrite !app_cons, IH. Qed.

Lemma app_inv_length b : forall b' x y,
  b +:+ x = b' +:+ y -> String.length b = String.length b' -> b = b' /\ x = y.
Proof.
  induction b as [|c b IH]; intros [|c' b'] x y H Hlen; try discriminate.
  - auto.
  - rewrite !app_cons in H. inversion H; subst.
    destruct (IH b' x y) as [-> ->]; auto.
Qed.

Lemma strip_prefix_Some p : forall s r, strip_prefix p s = Some r <-> s = p +:+ r.
Proof.
  induction p as [|a p IH]; intros s r; cbn [strip_prefix];
    rewrite ?app_cons, ?app_empty_l.
  - split; [intros H; now inversion H | now intros ->].
  - destruct s as [|b s]; [split; discriminate|].
    destruct (Ascii.eqb_spec a b) as [->|Hab].
    + rewrite IH. split; [now intros -> | intros H; now inversion H].
    + split; [discriminate | intros H; inversion H; congruence].
Qed.

Lemma splitAtFirst_eq p s :
  splitAtFirst p s
  = match strip_prefix p s with
    | Some following => Some (EmptyString, following)
    | None =>
        match s with
        | EmptyString => None
        | String c s' =>
            match splitAtFirst p s' with
            | Some (preceding, following) => Some (String c preceding, following)
            | None => None
            end
        end
    end.
Proof. destruct s; reflexivity. Qed.

(** What [splitAtFirst] returns is an occurrence of the pattern. *)
Lemma splitAtFirst_sound p s : forall b a,
  splitAtFirst p s = Some (b, a) -> s = b +:+ p +:+ a.
Proof.
  induction s as [|c s IH]; intros b a; rewrite splitAtFirst_eq.
  - destruct (strip_prefix p "") as [r|] eqn:E; [|discriminate].
    intros H; inversion H; subst. rewrite app_empty_l. now apply strip_prefix_Some.
  - destruct (strip_prefix p (String c s)) as [r|] eqn:E.
    + intros H; inversion H; subst. rewrite app_empty_l. now apply strip_prefix_Some.
    + destruct (splitAtFirst p s) as [[b' a']|]; [|discriminate].
      intros H; inversion H; subst. rewrite app_cons. f_equal. now apply IH.
Qed.

(** It is the leftmost one. *)
Lemma splitAtFirst_leftmost p s : forall b a,
  s = b +:+ p +:+ a ->
  exists b' a', splitAtFirst p s = Some (b', a') /\
                (String.length b' <= String.length b)%nat.
Proof.
  induction s as [|c s IH]; intros b a Hs; rewrite splitAtFirst_eq.
  - destruct b; [|discriminate]. rewrite app_empty_l in Hs.
    apply strip_prefix_Some in Hs. rewrite Hs. eexists _, _. split; [reflexivity|]. simpl. lia.
  - destruct (strip_prefix p (String c s)) as [r|] eqn:E.
    + eexists _, _. split; [reflexivity|]. simpl. lia.
    + destruct b as [|c' b].
      * rewrite app_empty_l in Hs. apply strip_prefix_Some in Hs. congruence.
      * rewrite app_cons in Hs. inversion Hs; subst c'.
        destruct (IH b a) as (b' & a' & Hsplit & Hlen); [congruence|].
        match goal with H : s = _ |- _ => rewrite <- H end.
        rewrite Hsplit.
        eexists _, _. split; [reflexivity|]. simpl. lia.
Qed.

Lemma splitAtFirst_absent p s :
  (forall b a, s <> b +:+ p +:+ a) -> splitAtFirst p s = None.
Proof.
  intros H. destruct (splitAtFirst p s) as [[b a]|] eqn:E; [|reflexivity].
  apply splitAtFirst_sound in E. now apply H in E.
Qed.

(** A replacement without a dollar is put in as it is. *)
Lemma GetSubstitution_plain matched preceding following template :
  occurs "$" template = false ->
  GetSubstitution matched preceding following template = template.
Proof.
  induction template as [|c rest IH]; [reflexivity|].
  cbn [occurs GetSubstitution]. intros H.
  apply orb_false_elim in H. destruct H as [Hc Hrest].
  rewrite Hc. f_equal. now apply IH.
Qed.

(** X11: placeholders whose keys do not occur in the format leave it as it
    is. *)
Theorem absent_placeholders_change_nothing format placeholders :
  (forall key value b a, In (key, value) placeholders -> format <> b +:+ key +:+ a) ->
  getTextFromFormat format placeholders = format.
Proof.
  unfold getTextFromFormat.
  induction placeholders as [|[key value] rest IH]; intros H; [reflexivity|].
  cbn [fold_left]. unfold String_replace at 2.
  rewrite splitAtFirst_absent.
  - apply IH. intros k v b a Hin. apply (H k v). now right.
  - intros b a. apply (H key value). now left.
Qed.

(** X12: a placeholder replaces the leftmost occurrence of its key and no
    other: what comes before and after that occurrence is kept, and a
    value without a dollar is put in as it is. *)
Theorem leftmost_occurrence_is_replaced format before key value after :
  format = before +:+ key +:+ after ->
  (forall b a, format = b +:+ key +:+ a -> (String.length before <= String.length b)%nat) ->
  occurs "$" value = false ->
  getTextFromFormat format [(key, value)] = before +:+ value +:+ after.
Proof.
  intros Hformat Hleft Hvalue.
  destruct (splitAtFirst_leftmost key format before after Hformat)
    as (b' & a' & Hsplit & Hlen).
  pose proof (splitAtFirst_sound _ _ _ _ Hsplit) as Hsound.
  pose proof (Hleft b' a' Hsound) as Hlen'.
  assert (Hsame : b' = before /\ key +:+ a' = key +:+ after).
  { apply app_inv_length; [congruence | lia]. }
  destruct Hsame as [-> Htail].
  apply app_inv_length in Htail; [|reflexivity]. destruct Htail as [_ ->].
  unfold getTextFromFormat. cbn [fold_left]. unfold String_replace.
  rewrite Hsplit, GetSubstitution_plain by assumption. reflexivity.
Qed.

(** ** [renderToString] *)

Lemma render_cons s ss v vs :
  renderToString (VTemplate (s :: ss) (v :: vs))
  = let* text := renderValue v in
    let* output := renderToString (VTemplate ss vs) in
    Ok (s +:+ text +:+ output).
Proof. destruct v; reflexivity. Qed.

Lemma render_no_strings vs : renderToString (VTemplate [] vs) = Ok "".
Proof. destruct vs; reflexivity. Qed.

(** X13: a template depends on each of its values through the text the
    value renders to: an embedded template, or an array, can be replaced
    by that text. *)
Theorem value_renders_as_its_text strings before v text after :
  renderValue v = Ok text ->
  renderToString (VTemplate strings (before ++ v :: after))
  = renderToString (VTemplate strings (before ++ VString text :: after)).
Proof.
  intros Hv. revert strings.
  induction before as [|b before IH]; intros [|s strings];
    rewrite ?render_no_strings; try reflexivity.
  - cbn [app]. rewrite !render_cons, Hv. reflexivity.
  - cbn [app]. rewrite !render_cons, IH. reflexivity.
Qed.

Lemma concat_cons x l : String.concat "" (x :: l) = x +:+ String.concat "" l.
Proof.
  destruct l; [|reflexivity].
  change (x = x +:+ ""). symmetry. apply app_empty_r.
Qed.

Lemma renderItems_texts items : forall texts,
  Forall2 (fun item text => renderToString item = Ok text) items texts ->
  renderItems items = Ok (String.concat "" texts).
Proof.
  induction items as [|item items IH]; intros texts H; inversion H; subst.
  - reflexivity.
  - cbn [renderItems]. rewrite H2, (IH _ H4). cbn [bind].
    now rewrite concat_cons.
Qed.

(** X14: an array of templates between two strings renders as the texts of
    its items, one after the other, between the two strings. *)
Theorem array_renders_as_the_texts_of_its_items before items texts after :
  Forall2 (fun item text => renderToString item = Ok text) items texts ->
  renderToString (VTemplate [before; after] [VArray items])
  = Ok (before +:+ String.concat "" texts +:+ after).
Proof.
  intros H. rewrite render_cons. cbn [renderValue].
  rewrite (renderItems_texts _ _ H). reflexivity.
Qed.

Lemma renderItems_templates items text :
  renderItems items = Ok text -> forallb isTemplate items = true.
Proof.
  revert text. induction items as [|item items IH]; intros text; [reflexivity|].
  cbn [renderItems forallb].
  destruct item; try discriminate.
  destruct (renderToString (VTemplate strings values)); cbn [bind]; [|discriminate].
  destruct (renderItems items) as [others|] eqn:E; cbn [bind]; [|discriminate].
  intros _. cbn [isTemplate andb]. now apply (IH others).
Qed.

(** X15: when a template renders, it has at most one string more than it
    has values, and each value met while there are strings left is neither
    [null] nor [undefined], and if an array, one of templates only. *)
Theorem rendered_template_is_well_formed strings values text :
  renderToString (VTemplate strings values) = Ok text ->
  (length strings <= S (length values))%nat /\
  (forall i v, (i < length strings)%nat -> nth_error values i = Some v ->
     v <> VNothing /\
     (forall items, v = VArray items -> forallb isTemplate items = true)).
Proof.
  revert strings text.
  induction values as [|v values IH]; intros [|s strings] text.
  - intros _. split; [simpl; lia|]. intros i w Hi. simpl in Hi. lia.
  - destruct strings; [|discriminate].
    intros _. split; [simpl; lia|]. intros [|i] w _ H; discriminate.
  - intros _. split; [simpl; lia|]. intros i w Hi. simpl in Hi. lia.
  - rewrite render_cons.
    destruct (renderValue v) as [t|] eqn:Hv; cbn [bind]; [|discriminate].
    destruct (renderToString (VTemplate strings values)) as [out|] eqn:Hrest;
      cbn [bind]; [|discriminate].
    intros _. destruct (IH strings out Hrest) as [Hlen Hvalues].
    split; [simpl; lia|].
    intros [|i] w Hi Hnth.
    + inversion Hnth; subst w. split.
      * intros ->. discriminate.
      * intros items ->. cbn [renderValue] in Hv.
        now apply (renderItems_templates items t).
    + apply (Hvalues i w); [simpl in Hi; lia | exact Hnth].
Qed.

End MiscFacts.

(** * [cli/sync/index.ts] *)

Module SyncFacts.
Import Sync.

Lemma found_are_supported (keys : list string) :
  List.filter (fun pkg => existsb (String.eqb pkg) supportedPackages) keys
  = repeat "vitepress" (length (List.filter (String.eqb "vitepress") keys)).
Proof.
  unfold supportedPackages.
  induction keys as [|key keys IH]; [reflexivity|].
  cbn [List.filter].
  replace (existsb (String.eqb key) ["vitepress"]) with (String.eqb key "vitepress")
    by (cbn [existsb]; now rewrite orb_false_r).
  rewrite (String.eqb_sym "vitepress" key).
  destruct (String.eqb_spec key "vitepress") as [->|Hne].
  - cbn [length repeat]. now rewrite IH.
  - exact IH.
Qed.

Section Facts.
Context {console : Console}.

(** X19: a [package.json] that lacks [dependencies] or [devDependencies]
    ends the process with status 1, whatever the other field lists. *)
Theorem package_json_needs_both_fields packageJson :
  dependencies packageJson = None \/ devDependencies packageJson = None ->
  getPackage (Ok packageJson) = ProcessExit 1.
Proof.
  unfold getPackage, loadPackageJson.
  intros [H|H]; rewrite H; [|destruct (dependencies packageJson)]; reflexivity.
Qed.

(** X20: with both fields present, what [getPackage] does follows from how
    many of their keys are [vitepress]: none ends the process with status
    0, one is returned without a question, and more (the package listed in
    both fields) are offered in a prompt, as many times as they were
    found. *)
Theorem getPackage_by_occurrences deps devDeps :
  getPackage (Ok (mkPackageJson (Some deps) (Some devDeps)))
  = match length (List.filter (String.eqb "vitepress")
                    (List.map fst deps ++ List.map fst devDeps)) with
    | O => ProcessExit 0
    | S O => Returned (Some "vitepress")
    | S (S n) =>
        let selected :=
          select (s "Found several packages Lunaria can sync with, which do you want to use?")
                 (repeat "vitepress" (S (S n))) (Some "vitepress") in
        if handleCancel _ selected then Cancelled
        else Returned (Some match selected with
                            | Answered value => value
                            | CancelSymbol => cancelText
                            end)
    end.
Proof.
  unfold getPackage, loadPackageJson. cbn [dependencies devDependencies keysOf].
  cbv zeta. rewrite found_are_supported.
  generalize (length (List.filter (String.eqb "vitepress")
                        (List.map fst deps ++ List.map fst devDeps))).
  intros [|[|n]]; reflexivity.
Qed.

Section UpdateConfigFacts.
Context {Locale Locales File Other : Type}.
Variable location : File -> string.
Abbreviation Config := (@Config Locale Locales File Other).




Lemma filter_filter_same {A : Type} (p : A -> bool) (xs : list A) :
  List.filter p (List.filter p xs) = List.filter p xs.
Proof.
  induction xs as [|x xs IH]; [reflexivity|].
  cbn [List.filter]. destruct (p x) eqn:E; [|exact IH].
  cbn [List.filter]. now rewrite E, IH.
Qed.

(** X17: when questions are skipped the configuration written is the one
    read with the values given put in, whatever the console would answer:
    the default locale and the locales given replace the former ones, the
    file given becomes the first entry of [files], followed by the former
    entries with another location, and the rest is kept. Updating once
    more with the same values writes the same configuration. *)
Theorem skipped_update_is_idempotent (config : Config) d l file :
  let written :=
    mkConfig
      match d with Some value => Some value | None => defaultLocale config end
      match l with Some value => Some value | None => locales config end
      match file with
      | Some value =>
          Some (value ::
                match files config with
                | Some old =>
                    List.filter
                      (fun f => negb (String.eqb (location f) (location value))) old
                | None => []
                end)
      | None => files config
      end
      (other config) in
  updateConfig location config d l file true = Returned written /\
  updateConfig location written d l file true = Returned written.
Proof.
  unfold updateConfig, answerTo. cbn [orb].
  destruct config as [d0 l0 files0 rest].
  destruct d as [dv|], l as [lv|], file as [f|]; cbv zeta;
    cbn [defaultLocale locales files other]; unfold otherFiles;
    cbn [defaultLocale locales files other List.filter];
    rewrite ?String.eqb_refl; cbn [negb];
    destruct files0 as [old|]; cbn [List.filter];
    rewrite ?filter_filter_same; split; reflexivity.
Qed.

(** X18: when every question is answered no, the configuration read is
    written back as it was. *)
Theorem declined_update_writes_the_config_back (config : Config) d l file :
  (forall message, confirm (s message) true = Answered false) ->
  handleCancel bool (Answered false) = false ->
  updateConfig location config d l file false = Returned config.
Proof.
  intros Hno Hstay. unfold updateConfig, answerTo.
  rewrite !Hno, Hstay. cbn [Boolean orb].
  destruct d, l, file; reflexivity.
Qed.

End UpdateConfigFacts.
End Facts.

End SyncFacts.

(** * The further properties on the examples *)

Section MoreOnTheExample.
#[local] Existing Instance Example.imports.
#[local] Existing Instance Samples.declining.

Ltac compute_it := vm_compute; reflexivity.

(** The second directive of the body is not the one matched. *)
Example first_directive_of_two :
  trackerDirectivesRe_match (body Samples.twoDirectives)
  = Some (mkGroups "@lunaria-track" (Some "docs/a.md")).
Proof. compute_it. Qed.

Lemma tracked_commit_is_the_first_tracked_witness :
  findLatestTrackedCommit Example.keywords "docs/a.md"
    [Example.vetoedButTracked; Example.c0] = Ok (Some Example.c0) /\
  exists re,
    ignoredKeywordsRe Example.keywords = Ok re /\
    exists newer older,
      [Example.vetoedButTracked; Example.c0] = newer ++ Example.c0 :: older /\
      (forall x, In x newer -> isTracked re "docs/a.md" x = Ok false) /\
      isTracked re "docs/a.md" Example.c0 = Ok true.
Proof.
  split; [compute_it|].
  apply (tracked_commit_is_the_first_tracked Example.keywords "docs/a.md"
           [Example.vetoedButTracked; Example.c0] (Some Example.c0)).
  compute_it.
Defined.

Lemma unfulfilled_call_keeps_the_cache_witness :
  getFileLatestChanges Example.forced "docs/new.md"
  = (Exited 1,
     mkInstance (git Example.forced) (config Example.forced)
                ["no commits found for docs/new.md"] true ∅) /\
  git Example.forced (logOptions Example.forced "docs/new.md") = Ok [] /\
  cache Example.forced = ∅.
Proof.
  assert (H : getFileLatestChanges Example.forced "docs/new.md"
              = (Exited 1,
                 mkInstance (git Example.forced) (config Example.forced)
                            ["no commits found for docs/new.md"] true ∅))
    by reflexivity.
  split; [exact H|].
  destruct (unfulfilled_call_keeps_the_cache Example.forced "docs/new.md" _ _ H)
    as (_ & Hlog & _).
  split; [exact Hlog | reflexivity].
Defined.


Lemma absent_placeholders_change_nothing_witness :
  Misc.getTextFromFormat Samples.greeting [("{user}", "Ana"); ("{day}", "Monday")]
  = Samples.greeting.
Proof.
  apply MiscFacts.absent_placeholders_change_nothing.
  intros key value b a [H|[H|[]]] Hocc; inversion H; subst;
    apply (MiscFacts.splitAtFirst_leftmost _ Samples.greeting) in Hocc;
    destruct Hocc as (b' & a' & Hsplit & _); vm_compute in Hsplit; discriminate.
Defined.

Lemma leftmost_occurrence_is_replaced_witness :
  Misc.getTextFromFormat Samples.greeting [("{name}", "Ana")] = "Hello Ana, {name}!".
Proof.
  apply (MiscFacts.leftmost_occurrence_is_replaced Samples.greeting
           "Hello " "{name}" "Ana" ", {name}!").
  - reflexivity.
  - intros b a Hocc.
    apply (MiscFacts.splitAtFirst_leftmost _ Samples.greeting) in Hocc.
    destruct Hocc as (b' & a' & Hsplit & Hlen).
    vm_compute in Hsplit. inversion Hsplit; subst b'. exact Hlen.
  - reflexivity.
Defined.

Lemma value_renders_as_its_text_witness :
  Misc.renderToString Samples.page
  = Misc.renderToString
      (Misc.VTemplate ["<p>"; " and "; "</p>"]
         [Misc.VString "<b>new</b>"; Misc.VArray [Samples.bold; Samples.bold]]).
Proof.
  apply (MiscFacts.value_renders_as_its_text ["<p>"; " and "; "</p>"] []
           Samples.bold "<b>new</b>" [Misc.VArray [Samples.bold; Samples.bold]]).
  reflexivity.
Defined.

Lemma array_renders_as_the_texts_of_its_items_witness :
  Misc.renderToString (Misc.VTemplate ["<ul>"; "</ul>"]
                         [Misc.VArray [Samples.bold; Samples.bold]])
  = Ok "<ul><b>new</b><b>new</b></ul>".
Proof.
  apply (MiscFacts.array_renders_as_the_texts_of_its_items "<ul>"
           [Samples.bold; Samples.bold] ["<b>new</b>"; "<b>new</b>"] "</ul>").
  repeat constructor.
Defined.

Lemma rendered_template_is_well_formed_witness :
  Misc.renderToString Samples.page = Ok "<p><b>new</b> and <b>new</b><b>new</b></p>" /\
  (3 <= 3)%nat /\
  (forall i v, (i < 3)%nat ->
     nth_error [Samples.bold; Misc.VArray [Samples.bold; Samples.bold]] i = Some v ->
     v <> Misc.VNothing /\
     (forall items, v = Misc.VArray items -> forallb Misc.isTemplate items = true)).
Proof.
  split; [reflexivity|].
  apply (MiscFacts.rendered_template_is_well_formed ["<p>"; " and "; "</p>"]
           [Samples.bold; Misc.VArray [Samples.bold; Samples.bold]]
           "<p><b>new</b> and <b>new</b><b>new</b></p>").
  reflexivity.
Defined.

(** A string among the items of an array makes the rendering throw. *)
Example string_in_an_array_throws :
  Misc.renderToString (Misc.VTemplate ["<ul>"; "</ul>"]
                         [Misc.VArray [Samples.bold; Misc.VString "text"]])
  = Throw TypeError.
Proof. reflexivity. Qed.

Lemma package_json_needs_both_fields_witness :
  Sync.getPackage (Ok Samples.onlyDependencies) = Sync.ProcessExit 1.
Proof.
  apply SyncFacts.package_json_needs_both_fields. right. reflexivity.
Defined.


Lemma declined_update_writes_the_config_back_witness :
  Sync.updateConfig fst Samples.stored (Some "fr") (Some ["de"])
    (Some ("docs/**", "new")) false
  = Sync.Returned Samples.stored.
Proof.
  apply (SyncFacts.declined_update_writes_the_config_back fst Samples.stored);
    reflexivity.
Defined.

Lemma keyword_veto_ignores_case_witness :
  isAscii "Fix typo in page" = true /\
  toUpperCase "Fix typo in page" = "FIX TYPO IN PAGE" /\
  exists re,
    ignoredKeywordsRe Example.keywords = Ok re /\
    RegExp.test re (toUpperCase "Fix typo in page") = RegExp.test re "Fix typo in page" /\
    RegExp.test re "FIX TYPO IN PAGE" = true.
Proof.
  split; [reflexivity|]. split; [reflexivity|].
  destruct (ignoredKeywordsRe Example.keywords) as [re|e] eqn:Hre;
    [|vm_compute in Hre; discriminate].
  exists re. split; [reflexivity|]. split.
  - apply (keyword_veto_ignores_case Example.keywords re "Fix typo in page" eq_refl Hre).
  - assert (Hre' : Ok re = ignoredKeywordsRe Example.keywords) by (symmetry; exact Hre).
    vm_compute in Hre'. inversion Hre'; subst re. compute_it.
Defined.

Lemma checkpoint_on_the_first_commit_is_rejected_witness :
  Git.revParse Samples.young "c0" = Some 1%nat /\
  getFileLatestChanges Samples.rooted "docs/a.md" = (Rejected GitError, Samples.rooted).
Proof.
  split; [compute_it|].
  apply (checkpoint_on_the_first_commit_is_rejected Samples.young Samples.rooted
           "docs/a.md" "c0" 1%nat);
    (discriminate || compute_it).
Defined.

Lemma trailing_semicolon_reaches_the_empty_glob_witness :
  bodyVerdict "docs/a.md" (body Samples.trailingSemicolon) = Throw TypeError.
Proof.
  apply (trailing_semicolon_reaches_the_empty_glob "docs/a.md" "docs/b.md" TypeError).
  - reflexivity.
  - intros glob [<-|[]]. compute_it.
Defined.

End MoreOnTheExample.
